(** * pcv: the streaming point-cloud codec, buffer manager and frame sequencer

    A shallow embedding of
    - [src/components/PCV.vue]: [handleWebSocketMessage], [parsePointCloudData]
      and [updatePointCloud] (the live-stream pipeline),
    - [src/assets/js/pointCloudWorker.js]: [self.onmessage],
    - [src/components/PointCloudViewer.vue]: [processH5File] from the frames
      group on (the numeric sort of frame names, the loop that builds one
      geometry per dataset, the start of playback) and [animate],
    - the second archive reader kept in [src/assets/js/pointCloudWorker.js]:
      its [processH5File] from the frames group on and its [animate],
    followed by the properties of the specification, stated over these
    definitions.

    Conventions of the model.
    - A JavaScript [throw] is a value of [completion] or [outcome]; state
      changed before a throw stays changed.
    - Typed arrays live in a store; [positions], [colors] and the geometry's
      attributes hold locations, so a reallocation is a new location.
    - A [Float32Array] element is its binary32 bit pattern (NaN payloads are
      not distinguished from what an engine canonicalises them to).
    - [pako.inflate] is a parameter of the pipeline; three.js calls are
      modelled by their effect on the attributes, the draw range and the
      material flag; allocation and [postMessage] are not modelled as failing.
    - An archive is what the HDF5 library hands over: the members of the
      frames group and, for each dataset, its array.  What a typed array makes
      of a Number, and the clock of [requestAnimationFrame], are parameters. *)

From Stdlib Require Import ZArith Lia Bool Ascii String.
From Stdlib.Strings Require Import Byte.
From stdpp Require Import base list sorting strings gmap.

Local Open Scope Z_scope.

(** ** JavaScript completions *)

(** What a [throw] carries.  The handlers of the program distinguish an error
    object (on which a property can be set) from a primitive value (on which,
    in module code, setting a property is itself a [TypeError]). *)
Inductive error_name := RangeError | TypeError.

Inductive thrown :=
| ErrorObject (name : error_name)
| PrimitiveString (msg : string).

Inductive completion (A : Type) :=
| Normal (a : A)
| Throw (e : thrown).
Arguments Normal {A} a.
Arguments Throw {A} e.

#[global] Instance completion_ret : MRet completion := fun A a => Normal a.
#[global] Instance completion_bind : MBind completion := fun A B f c =>
  match c with
  | Normal a => f a
  | Throw e => Throw e
  end.

(** ** Numbers *)

Module F32.

(** An element of a [Float32Array], identified by its IEEE-754 binary32 bit
    pattern, [0 <= bits < 2^32]. *)
Definition t := Z.

(** [new Float32Array(n)] is filled with [+0]. *)
Definition zero : t := 0.

(** The quiet NaN that [undefined / 255.0] stores. *)
Definition NaN : t := 0x7FC00000.

(** Nearest integer to [p / q] for [0 <= p], [0 < q], ties to even. *)
Definition rne_div (p q : Z) : Z :=
  let k := p / q in
  let r := p mod q in
  if 2 * r <? q then k
  else if q <? 2 * r then k + 1
  else if Z.even k then k else k + 1.

(** [p / q], for [0 < p] and [0 < q], rounded to [prec] significant bits:
    the pair [(m, e)] stands for [m * 2^e] with [2^(prec-1) <= m < 2^prec]. *)
Definition round_sig (prec p q : Z) : Z * Z :=
  let e0 := Z.log2 p - Z.log2 q in
  let e := if p * 2 ^ Z.max 0 (- e0) <? q * 2 ^ Z.max 0 e0 then e0 - 1 else e0 in
  let s := prec - 1 - e in
  let m := rne_div (p * 2 ^ Z.max 0 s) (q * 2 ^ Z.max 0 (- s)) in
  if m =? 2 ^ prec then (2 ^ (prec - 1), e + 1 - (prec - 1)) else (m, e - (prec - 1)).

(** The bits of the binary32 nearest to the positive rational [p / q], which
    has to lie in the normal range of binary32. *)
Definition of_ratio (p q : Z) : t :=
  let '(m, e) := round_sig 24 p q in
  (e + 23 + 127) * 2 ^ 23 + (m - 2 ^ 23).

(** [c / 255.0] stored in a [Float32Array]: the quotient is rounded to a
    double (53 bits) and the store rounds that double to binary32. *)
Definition div255 (c : Z) : t :=
  if c <=? 0 then zero
  else
    let '(m, e) := round_sig 53 c 255 in
    of_ratio (m * 2 ^ Z.max 0 e) (2 ^ Z.max 0 (- e)).

(** [DataView.getFloat32(offset, true)] stored in a [Float32Array]: the four
    bytes, least significant first, are the bit pattern. *)
Definition of_le_bytes (b0 b1 b2 b3 : Z) : t :=
  b0 + 256 * b1 + 65536 * b2 + 16777216 * b3.

End F32.

(** A JavaScript Number holding a non-negative integer: [z] rounded to the 53
    bits of a double; [2^1024] stands for [Infinity]. *)
Definition to_Number (z : Z) : Z :=
  if z <=? 0 then 0
  else
    let '(m, e) := F32.round_sig 53 z 1 in
    let v := m * 2 ^ Z.max 0 e / 2 ^ Z.max 0 (- e) in
    Z.min v (2 ^ 1024).

(** ** DataView over the decompressed bytes *)

Definition u8 (b : byte) : Z := Z.of_N (Byte.to_N b).

(** [dataView.getUint8(offset)] *)
Definition getUint8 (dv : list byte) (offset : nat) : completion Z :=
  match dv !! offset with
  | Some b => Normal (u8 b)
  | None => Throw (ErrorObject RangeError)
  end.

(** [dataView.getUint32(offset, true)] *)
Definition getUint32 (dv : list byte) (offset : nat) : completion Z :=
  match take 4 (drop offset dv) with
  | [b0; b1; b2; b3] =>
      Normal (u8 b0 + 256 * u8 b1 + 65536 * u8 b2 + 16777216 * u8 b3)
  | _ => Throw (ErrorObject RangeError)
  end.

(** [dataView.getFloat32(offset, true)] *)
Definition getFloat32 (dv : list byte) (offset : nat) : completion F32.t :=
  match take 4 (drop offset dv) with
  | [b0; b1; b2; b3] => Normal (F32.of_le_bytes (u8 b0) (u8 b1) (u8 b2) (u8 b3))
  | _ => Throw (ErrorObject RangeError)
  end.

(** ** Frame codec (PCV.vue, [parsePointCloudData], lines 153-180) *)

(** The three arguments [parsePointCloudData] hands to [updatePointCloud].
    [colorsArray = None] is the JavaScript [null]. *)
Record DecodedFrame := {
  numPoints : Z;
  positionsArray : list F32.t;
  colorsArray : option (list Z);
}.

(** [for (let i = 0; i < count; i++) { a[i] = dataView.getFloat32(offset, true); offset += 4; }] *)
Fixpoint read_positions (dv : list byte) (count offset : nat) : completion (list F32.t) :=
  match count with
  | O => Normal []
  | S k =>
      v ← getFloat32 dv offset;
      vs ← read_positions dv k (offset + 4)%nat;
      Normal (v :: vs)
  end.

(** [for (let i = 0; i < count; i++) { a[i] = dataView.getUint8(offset); offset += 1; }] *)
Fixpoint read_colors (dv : list byte) (count offset : nat) : completion (list Z) :=
  match count with
  | O => Normal []
  | S k =>
      c ← getUint8 dv offset;
      cs ← read_colors dv k (offset + 1)%nat;
      Normal (c :: cs)
  end.

Definition parse_frame (dv : list byte) : completion DecodedFrame :=
  n ← getUint32 dv 0;
  hasColors ← getUint8 dv 4;
  let count := Z.to_nat (n * 3) in
  ps ← read_positions dv count 5;
  if hasColors =? 0
  then Normal {| numPoints := n; positionsArray := ps; colorsArray := None |}
  else
    cs ← read_colors dv count (5 + 4 * count)%nat;
    Normal {| numPoints := n; positionsArray := ps; colorsArray := Some cs |}.

(** The size the header of [dv] implies: [5 + 12*pointCount], plus
    [3*pointCount] when the colour flag is non-zero.  A buffer too short to
    hold the five header bytes declares nothing and needs those five bytes. *)
Definition declared_pointCount (dv : list byte) : Z :=
  match getUint32 dv 0 with Normal n => n | Throw _ => 0 end.

Definition declared_hasColors (dv : list byte) : bool :=
  match getUint8 dv 4 with Normal c => negb (c =? 0) | Throw _ => false end.

Definition required_length (dv : list byte) : Z :=
  5 + 12 * declared_pointCount dv
  + (if declared_hasColors dv then 3 * declared_pointCount dv else 0).

(** ** The worker's codec (pointCloudWorker.js, [self.onmessage])

    [parse] is the parsing section, lines 12-39: it builds the object handed
    to [postMessage], whose colours are a [Float32Array].  [onmessage] is the
    whole handler, with what it posts back. *)
Module Worker.

Record message := {
  positions : list F32.t;
  colors : option (list F32.t);
  numPoints : Z;
}.

(** [for (...) { const colorValue = dataView.getUint8(offset);
                 colors[i] = colorValue / 255.0; offset += 1; }] *)
Fixpoint read_colors (dv : list byte) (count offset : nat) : completion (list F32.t) :=
  match count with
  | O => Normal []
  | S k =>
      colorValue ← getUint8 dv offset;
      cs ← read_colors dv k (offset + 1)%nat;
      Normal (F32.div255 colorValue :: cs)
  end.

Definition parse (dv : list byte) : completion message :=
  n ← getUint32 dv 0;
  hasColors ← getUint8 dv 4;
  let count := Z.to_nat (n * 3) in
  ps ← read_positions dv count 5;
  if hasColors =? 0
  then Normal {| positions := ps; colors := None; numPoints := n |}
  else
    cs ← read_colors dv count (5 + 4 * count)%nat;
    Normal {| positions := ps; colors := Some cs; numPoints := n |}.

(** What the handler posts back: the parsed message, or
    [{ error: error.message }] for the value [e] the [catch] block caught. *)
Inductive posted :=
| Parsed (m : message)
| Failure (e : thrown).

(** [self.postMessage({ positions, colors, numPoints },
                      [positions.buffer, colors ? colors.buffer : null])],
    lines 42-45.  A transfer list is a sequence of objects: the [null] that
    stands for absent colours makes the call throw a [TypeError], and nothing
    is posted by it. *)
Definition postMessage (m : message) : completion posted :=
  match colors m with
  | Some _ => Normal (Parsed m)
  | None => Throw (ErrorObject TypeError)
  end.

(** The handler, lines 6-50: whatever the [try] block throws, the
    decompressor's throw included, is caught and reported. *)
Definition onmessage (inflate : list byte -> completion (list byte)) (data : list byte)
  : posted :=
  match (raw ← inflate data; m ← parse raw; postMessage m) with
  | Normal p => p
  | Throw e => Failure e
  end.

End Worker.

(** ** The viewer session (PCV.vue, the variables of [setup])

    Typed arrays are objects: [positions] and the geometry's position
    attribute refer to the same [Float32Array].  The model keeps the arrays in
    a store and lets variables and attributes hold locations. *)

(** A location: the index of an array in the store. *)
Abbreviation loc := nat (only parsing).

(** [THREE.BufferAttribute]: the array it views and its version counter,
    which [needsUpdate = true] increments. *)
Record BufferAttribute := { array : loc; version : nat }.

Inductive event :=
| LogBounced                      (* console.log('Frame received but still processing previous frame. Bouncing frame.') *)
| PakoInflate (data : list byte)  (* pako.inflate(compressedData) is called *)
| ErrorParsing (e : thrown)       (* console.error('Error parsing point cloud data:', error) *)
| ErrorUpdating (e : thrown)      (* console.error('Error updating point cloud:', e) *)
| FitCamera.                      (* fitCameraToObject(pointCloud, 1.5) *)

Record viewer := {
  heap : list (list F32.t);  (* every [Float32Array] allocated so far, in allocation order *)
  maxPoints : Z;  (* [let maxPoints = 0] *)
  positions : option loc;  (* [let positions]: [None] is [undefined] *)
  colors : option loc;  (* [let colors]: [None] is [undefined] *)
  isFirstUpdate : bool;  (* [let isFirstUpdate = true] *)
  isProcessing : bool;  (* [let isProcessing = false] *)
  attr_position : option BufferAttribute;  (* [geometry.attributes.position] *)
  attr_color : option BufferAttribute;  (* [geometry.attributes.color] *)
  vertexColors : bool;  (* [material.vertexColors] *)
  drawRange_count : option Z;  (* [geometry.drawRange.count]: [None] is [Infinity] *)
  error_value : option string;  (* [error.value], the message the page shows *)
  trace : list event;  (* console output and library calls, oldest first *)
}.

Definition set_heap (v : list (list F32.t)) (s : viewer) : viewer :=
  {| heap := v; maxPoints := maxPoints s; positions := positions s; colors := colors s;
     isFirstUpdate := isFirstUpdate s; isProcessing := isProcessing s;
     attr_position := attr_position s; attr_color := attr_color s;
     vertexColors := vertexColors s; drawRange_count := drawRange_count s;
     error_value := error_value s; trace := trace s |}.

Definition set_maxPoints (v : Z) (s : viewer) : viewer :=
  {| heap := heap s; maxPoints := v; positions := positions s; colors := colors s;
     isFirstUpdate := isFirstUpdate s; isProcessing := isProcessing s;
     attr_position := attr_position s; attr_color := attr_color s;
     vertexColors := vertexColors s; drawRange_count := drawRange_count s;
     error_value := error_value s; trace := trace s |}.

Definition set_positions (v : option loc) (s : viewer) : viewer :=
  {| heap := heap s; maxPoints := maxPoints s; positions := v; colors := colors s;
     isFirstUpdate := isFirstUpdate s; isProcessing := isProcessing s;
     attr_position := attr_position s; attr_color := attr_color s;
     vertexColors := vertexColors s; drawRange_count := drawRange_count s;
     error_value := error_value s; trace := trace s |}.

Definition set_colors (v : option loc) (s : viewer) : viewer :=
  {| heap := heap s; maxPoints := maxPoints s; positions := positions s; colors := v;
     isFirstUpdate := isFirstUpdate s; isProcessing := isProcessing s;
     attr_position := attr_position s; attr_color := attr_color s;
     vertexColors := vertexColors s; drawRange_count := drawRange_count s;
     error_value := error_value s; trace := trace s |}.

Definition set_isFirstUpdate (v : bool) (s : viewer) : viewer :=
  {| heap := heap s; maxPoints := maxPoints s; positions := positions s;
     colors := colors s; isFirstUpdate := v; isProcessing := isProcessing s;
     attr_position := attr_position s; attr_color := attr_color s;
     vertexColors := vertexColors s; drawRange_count := drawRange_count s;
     error_value := error_value s; trace := trace s |}.

Definition set_isProcessing (v : bool) (s : viewer) : viewer :=
  {| heap := heap s; maxPoints := maxPoints s; positions := positions s;
     colors := colors s; isFirstUpdate := isFirstUpdate s; isProcessing := v;
     attr_position := attr_position s; attr_color := attr_color s;
     vertexColors := vertexColors s; drawRange_count := drawRange_count s;
     error_value := error_value s; trace := trace s |}.

Definition set_attr_position (v : option BufferAttribute) (s : viewer) : viewer :=
  {| heap := heap s; maxPoints := maxPoints s; positions := positions s;
     colors := colors s; isFirstUpdate := isFirstUpdate s;
     isProcessing := isProcessing s; attr_position := v; attr_color := attr_color s;
     vertexColors := vertexColors s; drawRange_count := drawRange_count s;
     error_value := error_value s; trace := trace s |}.

Definition set_attr_color (v : option BufferAttribute) (s : viewer) : viewer :=
  {| heap := heap s; maxPoints := maxPoints s; positions := positions s;
     colors := colors s; isFirstUpdate := isFirstUpdate s;
     isProcessing := isProcessing s; attr_position := attr_position s; attr_color := v;
     vertexColors := vertexColors s; drawRange_count := drawRange_count s;
     error_value := error_value s; trace := trace s |}.

Definition set_vertexColors (v : bool) (s : viewer) : viewer :=
  {| heap := heap s; maxPoints := maxPoints s; positions := positions s;
     colors := colors s; isFirstUpdate := isFirstUpdate s;
     isProcessing := isProcessing s; attr_position := attr_position s;
     attr_color := attr_color s; vertexColors := v; drawRange_count := drawRange_count s;
     error_value := error_value s; trace := trace s |}.

Definition set_drawRange_count (v : option Z) (s : viewer) : viewer :=
  {| heap := heap s; maxPoints := maxPoints s; positions := positions s;
     colors := colors s; isFirstUpdate := isFirstUpdate s;
     isProcessing := isProcessing s; attr_position := attr_position s;
     attr_color := attr_color s; vertexColors := vertexColors s; drawRange_count := v;
     error_value := error_value s; trace := trace s |}.

Definition set_error_value (v : option string) (s : viewer) : viewer :=
  {| heap := heap s; maxPoints := maxPoints s; positions := positions s;
     colors := colors s; isFirstUpdate := isFirstUpdate s;
     isProcessing := isProcessing s; attr_position := attr_position s;
     attr_color := attr_color s; vertexColors := vertexColors s;
     drawRange_count := drawRange_count s; error_value := v; trace := trace s |}.

Definition set_trace (v : list event) (s : viewer) : viewer :=
  {| heap := heap s; maxPoints := maxPoints s; positions := positions s;
     colors := colors s; isFirstUpdate := isFirstUpdate s;
     isProcessing := isProcessing s; attr_position := attr_position s;
     attr_color := attr_color s; vertexColors := vertexColors s;
     drawRange_count := drawRange_count s; error_value := error_value s; trace := v |}.

Definition log (ev : event) (s : viewer) : viewer := set_trace (trace s ++ [ev]) s.

(** The session after [initThree] has built the geometry and the material
    ([vertexColors: true]) and before any frame has arrived. *)
Definition initial_viewer : viewer :=
  {| heap := []; maxPoints := 0; positions := None; colors := None;
     isFirstUpdate := true; isProcessing := false;
     attr_position := None; attr_color := None; vertexColors := true;
     drawRange_count := None; error_value := None; trace := [] |}.

(** ** Statements: state that survives a [throw] *)

Inductive outcome :=
| Done (s : viewer)
| Raised (e : thrown) (s : viewer).

Definition stmt := viewer -> outcome.

Definition state_of (o : outcome) : viewer :=
  match o with Done s => s | Raised _ s => s end.

Definition skip : stmt := Done.
Definition assign (f : viewer -> viewer) : stmt := fun s => Done (f s).
Definition throw (e : thrown) : stmt := Raised e.

Definition seq (a b : stmt) : stmt := fun s =>
  match a s with
  | Done s' => b s'
  | Raised e s' => Raised e s'
  end.

Definition ite (c : viewer -> bool) (a b : stmt) : stmt := fun s =>
  if c s then a s else b s.

Definition try_catch (body : stmt) (handler : thrown -> stmt) : stmt := fun s =>
  match body s with
  | Done s' => Done s'
  | Raised e s' => handler e s'
  end.

Definition try_finally (body finalizer : stmt) : stmt := fun s =>
  match body s with
  | Done s' => finalizer s'
  | Raised e s' =>
      match finalizer s' with
      | Done s'' => Raised e s''
      | Raised e' s'' => Raised e' s''
      end
  end.

Declare Scope stmt_scope.
Delimit Scope stmt_scope with stmt.
Bind Scope stmt_scope with stmt.
Notation "a ;; b" := (seq a%stmt b%stmt)
  (at level 100, b at level 200, right associativity) : stmt_scope.

(** ** Geometry buffer manager (PCV.vue, [updatePointCloud], lines 191-248) *)

(** [new Float32Array(n)].  Allocation is taken to succeed: the caller has
    just allocated a [positionsArray] of the same length. *)
Definition new_Float32Array (n : Z) (s : viewer) : loc * viewer :=
  (length (heap s), set_heap (heap s ++ [replicate (Z.to_nat n) F32.zero]) s).

(** The body of [if (maxPoints < numPoints) { ... }], lines 194-215. *)
Definition reallocate (colorsArray : option (list Z)) (numPoints : Z) : stmt :=
  (assign (set_maxPoints numPoints) ;;
   (fun s =>
      let '(p, s) := new_Float32Array (maxPoints s * 3) s in
      Done (set_attr_position (Some {| array := p; version := 0 |})
              (set_positions (Some p) s))) ;;
   match colorsArray with
   | Some _ =>
       (fun s =>
          let '(c, s) := new_Float32Array (maxPoints s * 3) s in
          Done (set_attr_color (Some {| array := c; version := 0 |})
                  (set_colors (Some c) s))) ;;
       assign (set_vertexColors true)
   | None =>
       (* if (geometry.attributes.color) geometry.deleteAttribute('color') *)
       assign (set_attr_color None) ;;
       assign (set_vertexColors false)
   end)%stmt.

(** [positions.set(src)], line 219: a [TypeError] when [positions] is
    [undefined], a [RangeError] when [src] does not fit.  (A location outside
    the store does not occur: see [invariant].) *)
Definition positions_set (src : list F32.t) : stmt := fun s =>
  match positions s with
  | None => Raised (ErrorObject TypeError) s
  | Some p =>
      match heap s !! p with
      | None => Raised (ErrorObject TypeError) s
      | Some target =>
          if (length src <=? length target)%nat
          then Done (set_heap (<[p := src ++ drop (length src) target]> (heap s)) s)
          else Raised (ErrorObject RangeError) s
      end
  end.

(** [geometry.attributes.position.needsUpdate = true], line 220. *)
Definition position_needsUpdate : stmt := fun s =>
  match attr_position s with
  | None => Raised (ErrorObject TypeError) s
  | Some a => Done (set_attr_position (Some {| array := array a; version := S (version a) |}) s)
  end.

(** [colorsArray[i] / 255.0] as a [Float32Array] holds it; reading past the
    end of [colorsArray] yields [undefined], and [undefined / 255.0] is NaN. *)
Definition stored_color (colorsArray : list Z) (i : nat) : F32.t :=
  match colorsArray !! i with
  | Some byte => F32.div255 byte
  | None => F32.NaN
  end.

(** [colors[i] = colorsArray[i] / 255.0], line 225: a [TypeError] when
    [colors] is [undefined]; a store past the end of a typed array is dropped. *)
Definition store_color (colorsArray : list Z) (i : nat) : stmt := fun s =>
  match colors s with
  | None => Raised (ErrorObject TypeError) s
  | Some c =>
      Done (set_heap (alter (fun a => <[i := stored_color colorsArray i]> a) c (heap s)) s)
  end.

(** [for (let i = 0; i < numPoints * 3; i++) { ... }], lines 224-226. *)
Fixpoint store_colors (colorsArray : list Z) (count i : nat) : stmt :=
  match count with
  | O => skip
  | S k => (store_color colorsArray i ;; store_colors colorsArray k (S i))%stmt
  end.

(** [geometry.attributes.color.needsUpdate = true], line 227. *)
Definition color_needsUpdate : stmt := fun s =>
  match attr_color s with
  | None => Raised (ErrorObject TypeError) s
  | Some a => Done (set_attr_color (Some {| array := array a; version := S (version a) |}) s)
  end.

(** The [try] block, lines 193-240.  [numPoints] is never negative: it is read
    by [getUint32].  [computeBoundingSphere] changes nothing the model keeps. *)
Definition updatePointCloud_try
    (positionsArray : list F32.t) (colorsArray : option (list Z)) (numPoints : Z) : stmt :=
  (ite (fun s => maxPoints s <? numPoints) (reallocate colorsArray numPoints) skip ;;
   positions_set (take (Z.to_nat (numPoints * 3)) positionsArray) ;;
   position_needsUpdate ;;
   match colorsArray with
   | Some cs => store_colors cs (Z.to_nat (numPoints * 3)) 0 ;; color_needsUpdate
   | None => skip
   end ;;
   assign (set_drawRange_count (Some numPoints)) ;;
   ite isFirstUpdate (assign (set_isFirstUpdate false) ;; assign (log FitCamera)) skip)%stmt.

Definition updatePointCloud
    (positionsArray : list F32.t) (colorsArray : option (list Z)) (numPoints : Z) : stmt :=
  try_finally
    (try_catch (updatePointCloud_try positionsArray colorsArray numPoints)
       (fun e => assign (log (ErrorUpdating e)) ;;
                 assign (set_error_value (Some "Error updating point cloud"%string)))%stmt)
    (assign (set_isProcessing false)).

(** [ingest] of a decoded frame. *)
Definition ingest (f : DecodedFrame) : stmt :=
  updatePointCloud (positionsArray f) (colorsArray f) (numPoints f).

(** ** Stream admission and decoding (PCV.vue, lines 134-189) *)

Section Pipeline.

(** [pako.inflate]: the decompressed bytes, or what the library throws.  A
    library that returns [undefined] is covered by [Throw (ErrorObject
    TypeError)]: reading [.buffer] of it throws inside the same [try]. *)
Variable inflate : list byte -> completion (list byte).

Definition parsePointCloudData (data : list byte) : stmt :=
  try_catch
    (assign (log (PakoInflate data)) ;;
     match inflate data with
     | Throw e => throw e
     | Normal decompressedData =>
         match parse_frame decompressedData with
         | Throw e => throw e
         | Normal f => updatePointCloud (positionsArray f) (colorsArray f) (numPoints f)
         end
     end)%stmt
    (fun error =>
       (assign (log (ErrorParsing error)) ;;
        (* error.value = 'Error parsing point cloud data': [error] is the
           parameter of this catch clause, the value that was thrown *)
        match error with
        | ErrorObject _ => skip
        | PrimitiveString _ => throw (ErrorObject TypeError)
        end ;;
        assign (set_isProcessing false))%stmt).

Definition handleWebSocketMessage (data : list byte) : stmt :=
  ite isProcessing
    (assign (log LogBounced))
    (assign (set_isProcessing true) ;; parsePointCloudData data)%stmt.

(** The messages of a connection, one call of the handler each.  A throw
    that leaves the handler is reported by the browser and the next message
    is delivered to the same session. *)
Fixpoint deliver (messages : list (list byte)) (s : viewer) : viewer :=
  match messages with
  | [] => s
  | m :: rest => deliver rest (state_of (handleWebSocketMessage m s))
  end.

End Pipeline.

(** ** Frame sequencer (PointCloudViewer.vue, [processH5File], lines 100-105) *)

Definition is_digit (c : ascii) : bool :=
  (48 <=? nat_of_ascii c)%nat && (nat_of_ascii c <=? 57)%nat.

(** The digits a string starts with. *)
Fixpoint digit_run (s : string) : string :=
  match s with
  | EmptyString => EmptyString
  | String c s' => if is_digit c then String c (digit_run s') else EmptyString
  end.

(** [a.match(/\d+/)]: [None] is [null]; otherwise element [0] of the match,
    the first maximal run of decimal digits. *)
Fixpoint match_digits (s : string) : option string :=
  match s with
  | EmptyString => None
  | String c s' => if is_digit c then Some (String c (digit_run s')) else match_digits s'
  end.

Fixpoint decimal_value (acc : Z) (digits : string) : Z :=
  match digits with
  | EmptyString => acc
  | String c s' => decimal_value (10 * acc + (Z.of_nat (nat_of_ascii c) - 48)) s'
  end.

(** [parseInt] of a string of decimal digits: a Number.  (An engine may read
    the digits after the twentieth as zeros; the model keeps them.) *)
Definition parseInt (digits : string) : Z := to_Number (decimal_value 0 digits).

(** [parseInt(a.match(/\d+/)[0])]: indexing [null] throws a [TypeError]. *)
Definition frame_number (a : string) : completion Z :=
  match match_digits a with
  | None => Throw (ErrorObject TypeError)
  | Some m => Normal (parseInt m)
  end.

(** The comparator [(a, b) => aNum - bNum].  Only the sign of the result is
    used; [Infinity - Infinity], which the sort reads as [0], is [0] here. *)
Definition compare_frame_names (a b : string) : completion Z :=
  aNum ← frame_number a;
  bNum ← frame_number b;
  Normal (aNum - bNum).

(** [Array.prototype.sort(comparefn)]: a stable sort, here by insertion from
    the right.  A throw of the comparator ends the sort.  The comparator is
    not called on arrays of fewer than two elements. *)
Fixpoint insert_sorted {A} (comparefn : A -> A -> completion Z) (x : A) (l : list A)
  : completion (list A) :=
  match l with
  | [] => Normal [x]
  | y :: ys =>
      v ← comparefn x y;
      if v <=? 0 then Normal (x :: y :: ys)
      else (r ← insert_sorted comparefn x ys; Normal (y :: r))
  end.

Fixpoint Array_sort {A} (comparefn : A -> A -> completion Z) (l : list A)
  : completion (list A) :=
  match l with
  | [] => Normal []
  | x :: xs => sorted ← Array_sort comparefn xs; insert_sorted comparefn x sorted
  end.

Definition sort_frame_names (frame_names : list string) : completion (list string) :=
  Array_sort compare_frame_names frame_names.

(** A decoded frame as the data model has it: three position components per
    point and, when colours are present, three colour bytes per point. *)
Definition well_formed (f : DecodedFrame) : Prop :=
  0 <= numPoints f
  /\ Z.of_nat (length (positionsArray f)) = 3 * numPoints f
  /\ match colorsArray f with
     | Some cs => Z.of_nat (length cs) = 3 * numPoints f /\ Forall (fun c => 0 <= c <= 255) cs
     | None => True
     end.

(** ** Observations used by the properties *)

(** The frames of a history, ingested one after the other. *)
Definition ingest_all (frames : list DecodedFrame) (s : viewer) : viewer :=
  fold_left (fun s f => state_of (ingest f s)) frames s.

(** What a statement raised, if it did. *)
Definition raised (o : outcome) : option thrown :=
  match o with Done _ => None | Raised e _ => Some e end.

(** The array a variable refers to. *)
Definition deref (s : viewer) (v : option loc) : option (list F32.t) :=
  l ← v; heap s !! l.

Definition defined {A} (o : option A) : bool :=
  match o with Some _ => true | None => false end.

(** A statement preserves an observation when the state it leaves, raised or
    not, shows the same value. *)
Definition preserves {X} (obs : viewer -> X) (c : stmt) : Prop :=
  forall s, obs (state_of (c s)) = obs s.

(** The allocation state: capacity, the two storage variables, the length
    of every array, and which attributes the geometry has. *)
Definition shape_of (s : viewer)
  : Z * option loc * option loc * list nat * bool * bool :=
  (maxPoints s, positions s, colors s, length <$> heap s,
   defined (attr_position s), defined (attr_color s)).

(** What holds of the session between frames, read off the allocation
    state: the capacity is not negative; the position variable is defined
    exactly when the position attribute is, refers to an array of [3*capacity]
    elements, and is undefined only at capacity [0]; a colour attribute on
    the geometry comes with a colour variable that refers to an array of
    [3*capacity] elements; and the colour variable, when defined, refers to
    an array of the store other than the position array. *)
Definition invariant (s : viewer) : Prop :=
  let '(m, p, c, lengths, position_attr, color_attr) := shape_of s in
  0 <= m
  /\ match p with
     | Some p => lengths !! p = Some (Z.to_nat (m * 3)) /\ position_attr = true
     | None => m = 0 /\ position_attr = false
     end
  /\ (color_attr = true ->
      exists c', c = Some c' /\ lengths !! c' = Some (Z.to_nat (m * 3)))
  /\ (forall c', c = Some c' -> (c' < length lengths)%nat /\ p <> Some c').

(** The stores of the colour loop on one array. *)
Fixpoint write_colors (colorsArray : list Z) (count i : nat) (a : list F32.t) : list F32.t :=
  match count with
  | O => a
  | S k => write_colors colorsArray k (S i) (<[i := stored_color colorsArray i]> a)
  end.

(** The number a frame name is ordered by: [parseInt] of its first run of
    digits ([0] for a name without one, on which the comparator throws). *)
Definition frame_key (a : string) : Z :=
  match match_digits a with Some m => parseInt m | None => 0 end.

Definition has_digits (a : string) : bool := defined (match_digits a).

(** ** The frame order in the words of the specification

    'The numeric substring each name contains': the first maximal run of
    decimal digits of the name.  Its number is the integer that run spells as
    a decimal numeral.  These definitions do not go through [match_digits],
    [digit_run] or [parseInt]. *)
(** The value of a decimal digit: its place among the ten digits. *)
Definition decimal_digit (c : ascii) : option Z :=
  (fun found => Z.of_nat found.1)
    <$> list_find (fun d => d = c) (list_ascii_of_string "0123456789").

Fixpoint leading_digits (s : string) : string :=
  match s with
  | EmptyString => EmptyString
  | String c s' =>
      match decimal_digit c with
      | Some _ => String c (leading_digits s')
      | None => EmptyString
      end
  end.

(** The empty string when the name holds no digit. *)
Fixpoint numeric_substring (name : string) : string :=
  match name with
  | EmptyString => EmptyString
  | String c s' =>
      match decimal_digit c with
      | Some _ => String c (leading_digits s')
      | None => numeric_substring s'
      end
  end.

(** The integer a decimal numeral spells: each digit times its power of ten. *)
Fixpoint numeral (digits : string) : Z :=
  match digits with
  | EmptyString => 0
  | String c s' =>
      default 0 (decimal_digit c) * 10 ^ Z.of_nat (String.length s') + numeral s'
  end.

Definition number_in (name : string) : Z := numeral (numeric_substring name).

(** The statements of the [try] block after the capacity check. *)
Definition copy_in (src : list F32.t) (ca : option (list Z)) (n : Z) : stmt :=
  (positions_set src ;;
   position_needsUpdate ;;
   match ca with
   | Some cs => store_colors cs (Z.to_nat (n * 3)) 0 ;; color_needsUpdate
   | None => skip
   end ;;
   assign (set_drawRange_count (Some n)) ;;
   ite isFirstUpdate (assign (set_isFirstUpdate false) ;; assign (log FitCamera)) skip)%stmt.

(** The position variable, the colour variable, and the array at [p] unless
    the colour variable refers to it. *)
Definition position_view (p : nat) (s : viewer)
  : option nat * option nat * option (list F32.t) :=
  (positions s, colors s,
   if decide (colors s = Some p) then None else heap s !! p).

(** ** Sample frames and messages *)

(** Position components [1.0], [2.0], [3.0] (and [4.0], [5.0], [6.0]) as
    binary32 bit patterns. *)
Definition plain_frame_1 : DecodedFrame :=
  {| numPoints := 1;
     positionsArray := [0x3F800000; 0x40000000; 0x40400000];
     colorsArray := None |}.

Definition plain_frame_2 : DecodedFrame :=
  {| numPoints := 2;
     positionsArray := [0x3F800000; 0x40000000; 0x40400000;
                        0x40800000; 0x40A00000; 0x40C00000];
     colorsArray := None |}.

Definition coloured_frame_1 : DecodedFrame :=
  {| numPoints := 1;
     positionsArray := [0x40800000; 0x40A00000; 0x40C00000];
     colorsArray := Some [255; 0; 128] |}.

Definition coloured_frame_2 : DecodedFrame :=
  {| numPoints := 2;
     positionsArray := [0x3F800000; 0x40000000; 0x40400000;
                        0x40800000; 0x40A00000; 0x40C00000];
     colorsArray := Some [255; 0; 128; 1; 2; 3] |}.

Definition empty_frame : DecodedFrame :=
  {| numPoints := 0; positionsArray := []; colorsArray := None |}.

(** The wire bytes of [coloured_frame_1]. *)
Definition coloured_frame_1_bytes : list byte :=
  [x01; x00; x00; x00; x01;
   x00; x00; x80; x40; x00; x00; xa0; x40; x00; x00; xc0; x40;
   xff; x00; x80].

(** A stand-in for the decompressor on sample messages: like pako it rejects
    a payload that does not start with the zlib header byte [0x78] by
    throwing the string 'incorrect header check'; otherwise it hands back the
    bytes after the two header bytes. *)
Definition sample_inflate (data : list byte) : completion (list byte) :=
  match data with
  | x78 :: _ :: stored => Normal stored
  | _ => Throw (PrimitiveString "incorrect header check")
  end.

(** ** Further observations of the session *)

(** A statement changes an observation by [g] when it completes and keeps
    it when it raises. *)
Definition on_completion {X} (obs : viewer -> X) (g : X -> X) (c : stmt) : Prop :=
  forall s, match c s with
            | Done s' => obs s' = g (obs s)
            | Raised _ s' => obs s' = obs s
            end.

(** What the page and the renderer are told: the draw range, whether the
    camera still has to be fitted, the console, the error message. *)
Definition display (s : viewer) : option Z * bool * list event * option string :=
  (drawRange_count s, isFirstUpdate s, trace s, error_value s).

(** The events of the admission protocol: a bounced message, a message
    handed to the decompressor. *)
Definition is_admission (ev : event) : bool :=
  match ev with
  | LogBounced | PakoInflate _ => true
  | _ => false
  end.

Definition admission_events (s : viewer) : list event :=
  List.filter is_admission (trace s).

Definition is_fit (ev : event) : bool :=
  match ev with FitCamera => true | _ => false end.

(** How often the camera has been fitted. *)
Definition camera_fits (s : viewer) : nat := length (List.filter is_fit (trace s)).

(** The frame a message decodes to, if the decompressor and the codec both
    return. *)
Definition decoded (inflate : list byte -> completion (list byte)) (data : list byte)
  : option DecodedFrame :=
  match inflate data with
  | Normal raw => match parse_frame raw with Normal f => Some f | Throw _ => None end
  | Throw _ => None
  end.

(** The arrays the variables refer to and the arrays the geometry's
    attributes view. *)
Definition bindings (s : viewer) : option nat * option nat * option nat * option nat :=
  (positions s, colors s, array <$> attr_position s, array <$> attr_color s).

(** The events [handleWebSocketMessage] and [parsePointCloudData] log
    themselves. *)
Definition logged_by_handlers (ev : event) : bool :=
  match ev with
  | LogBounced | PakoInflate _ | ErrorParsing _ => true
  | _ => false
  end.

(** ** Archive frames (PointCloudViewer.vue, [processH5File], lines 119-195,
    and the second reader in pointCloudWorker.js, lines 157-235)

    A dataset is handed over as a JavaScript array of Numbers: an array of
    rows by the first reader's [to_array()], one flat array by the second
    reader's [.value].  What a typed array holds after a Number is stored in
    it is a parameter. *)
Module Archive.

Section Frames.

Variable number : Type.
Variable ToFloat32 : number -> F32.t.   (* a Number stored in a [Float32Array] *)
Variable ToUint8 : number -> Z.         (* a Number stored in a [Uint8Array] *)

Inductive value :=
| Num (x : number)
| Undefined.

(** [a[i]] of an array: [undefined] past its end. *)
Definition element (a : list value) (i : nat) : value := default Undefined (a !! i).

Definition float32_of (v : value) : F32.t :=
  match v with Num x => ToFloat32 x | Undefined => F32.NaN end.

Definition uint8_of (v : value) : Z :=
  match v with Num x => ToUint8 x | Undefined => 0 end.

Definition property_names : list string :=
  ["x"; "y"; "z"; "red"; "green"; "blue"]%string.

(** [for (i ...) properties[property_names[i]] = new Array(num_points)] *)
Definition new_properties (num_points : nat) : gmap string (list value) :=
  foldl (fun properties name => <[name := replicate num_points Undefined]> properties)
    ∅ property_names.

(** [for (j ...) properties[property_names[j]][i] = row[j]]; [names] are the
    property names from index [j] on.  The index [i] is within the array. *)
Fixpoint store_row (row : list value) (i : nat) (names : list string) (j : nat)
    (properties : gmap string (list value)) : gmap string (list value) :=
  match names with
  | [] => properties
  | name :: rest =>
      store_row row i rest (S j)
        (alter (fun a => <[i := element row j]> a) name properties)
  end.

(** [for (i ...) { const row = data[i]; ... }]; [data] are the rows from
    index [i] on. *)
Fixpoint store_rows (data : list (list value)) (i : nat)
    (properties : gmap string (list value)) : gmap string (list value) :=
  match data with
  | [] => properties
  | row :: rest => store_rows rest (S i) (store_row row i property_names 0 properties)
  end.

(** [properties['x']]; every property name is a key by then. *)
Definition column (properties : gmap string (list value)) (name : string) : list value :=
  default [] (properties !! name).

(** [for (i ...) { t[i*3] = a[i]; t[i*3 + 1] = b[i]; t[i*3 + 2] = c[i]; }] *)
Fixpoint interleave {T} (store : value -> T) (a b c : list value) (count i : nat)
    (t : list T) : list T :=
  match count with
  | O => t
  | S k =>
      interleave store a b c k (S i)
        (<[(i * 3 + 2)%nat := store (element c i)]>
           (<[(i * 3 + 1)%nat := store (element b i)]>
              (<[(i * 3)%nat := store (element a i)]> t)))
  end.

(** The two attributes of a frame's geometry. *)
Record geometry := {
  positions : list F32.t;   (* the [Float32Array] of the position attribute *)
  colors : list Z;          (* the [Uint8Array] of the normalized colour attribute *)
}.

Definition geometry_of (properties : gmap string (list value)) (num_points : nat)
  : geometry :=
  {| positions :=
       interleave float32_of (column properties "x") (column properties "y")
         (column properties "z") num_points 0 (replicate (num_points * 3)%nat F32.zero);
     colors :=
       interleave uint8_of (column properties "red") (column properties "green")
         (column properties "blue") num_points 0 (replicate (num_points * 3)%nat 0) |}.

(** The first reader: [data] is an array of rows. *)
Definition build_geometry (data : list (list value)) : geometry :=
  let num_points := length data in
  geometry_of (store_rows data 0 (new_properties num_points)) num_points.

(** The second reader: [data] is flat,
    [properties[property_names[j]][i] = data[i * num_properties + j]]. *)
Fixpoint store_flat_row (data : list value) (i : nat) (names : list string) (j : nat)
    (properties : gmap string (list value)) : gmap string (list value) :=
  match names with
  | [] => properties
  | name :: rest =>
      store_flat_row data i rest (S j)
        (alter (fun a => <[i := element data (i * length property_names + j)%nat]> a)
           name properties)
  end.

Fixpoint store_flat (data : list value) (count i : nat)
    (properties : gmap string (list value)) : gmap string (list value) :=
  match count with
  | O => properties
  | S k => store_flat data k (S i) (store_flat_row data i property_names 0 properties)
  end.

(** [num_points = data.length / property_names.length]; [new Array(num_points)]
    throws a [RangeError] unless that is an integer. *)
Definition build_flat_geometry (data : list value) : completion geometry :=
  if (length data mod length property_names =? 0)%nat
  then
    let num_points := (length data / length property_names)%nat in
    Normal (geometry_of (store_flat data num_points 0 (new_properties num_points))
              num_points)
  else Throw (ErrorObject RangeError).

(** What a dataset hands over. *)
Inductive dataset :=
| NotAnArray
| Rows (rows : list (list value)).

Inductive flat_dataset :=
| NotAnArrayFlat
| Flat (values : list value).

(** [frames_group.get(frame_name)] on the members of the frames group, listed
    in the order of its keys. *)
Fixpoint get {D} (group : list (string * D)) (frame_name : string) : option D :=
  match group with
  | [] => None
  | (key, d) :: rest => if decide (key = frame_name) then Some d else get rest frame_name
  end.

(** The rows of a dataset that passes
    [if (!Array.isArray(data) || !data.length) continue]. *)
Definition usable (group : list (string * dataset)) (frame_name : string)
  : option (list (list value)) :=
  match get group frame_name with
  | Some (Rows (row :: rows)) => Some (row :: rows)
  | _ => None
  end.

(** [for (const frame_name of frame_names) { ... frames.push(pointCloud); }]:
    a dataset that is no array or is empty is skipped with a warning. *)
Fixpoint process_frames (group : list (string * dataset)) (frame_names : list string)
    (frames : list geometry) : completion (list geometry) :=
  match frame_names with
  | [] => Normal frames
  | frame_name :: rest =>
      match get group frame_name with
      | None => Throw (ErrorObject TypeError)
      | Some NotAnArray | Some (Rows []) => process_frames group rest frames
      | Some (Rows data) => process_frames group rest (frames ++ [build_geometry data])
      end
  end.

Fixpoint process_flat_frames (group : list (string * flat_dataset))
    (frame_names : list string) (frames : list geometry) : completion (list geometry) :=
  match frame_names with
  | [] => Normal frames
  | frame_name :: rest =>
      match get group frame_name with
      | None => Throw (ErrorObject TypeError)
      | Some NotAnArrayFlat | Some (Flat []) => process_flat_frames group rest frames
      | Some (Flat data) =>
          g ← build_flat_geometry data;
          process_flat_frames group rest (frames ++ [g])
      end
  end.

(** How [processH5File] ends. *)
Inductive failure :=
| MissingFramesGroup            (* 'Missing 'frames' group in file' *)
| NoValidFrames                 (* 'No valid frames found in file' *)
| Thrown (e : thrown).

Inductive load :=
| Playing (frames : list geometry)   (* [animate()] is started on [frames] *)
| Failed (why : failure).            (* the page shows 'Failed to process point cloud data: ...' *)

Definition started (frames : completion (list geometry)) : load :=
  match frames with
  | Throw e => Failed (Thrown e)
  | Normal [] => Failed NoValidFrames
  | Normal frames => Playing frames
  end.

(** PointCloudViewer.vue: [frames_group] is what [f.get('frames')] returned,
    [None] when that is falsy. *)
Definition processH5File (frames_group : option (list (string * dataset))) : load :=
  match frames_group with
  | None => Failed MissingFramesGroup
  | Some group =>
      match sort_frame_names group.*1 with
      | Throw e => Failed (Thrown e)
      | Normal frame_names => started (process_frames group frame_names [])
      end
  end.

(** The second reader: the keys are taken in the order the group lists them. *)
Definition processH5File_flat (frames_group : option (list (string * flat_dataset)))
  : load :=
  match frames_group with
  | None => Failed MissingFramesGroup
  | Some group => started (process_flat_frames group group.*1 [])
  end.

End Frames.

Arguments Num {number} x.
Arguments Undefined {number}.
Arguments element {number} a i.
Arguments float32_of {number} ToFloat32 v.
Arguments uint8_of {number} ToUint8 v.
Arguments new_properties {number} num_points.
Arguments store_row {number} row i names j properties.
Arguments store_rows {number} data i properties.
Arguments column {number} properties name.
Arguments interleave {number T} store a b c count i t.
Arguments geometry_of {number} ToFloat32 ToUint8 properties num_points.
Arguments build_geometry {number} ToFloat32 ToUint8 data.
Arguments store_flat_row {number} data i names j properties.
Arguments store_flat {number} data count i properties.
Arguments build_flat_geometry {number} ToFloat32 ToUint8 data.
Arguments NotAnArray {number}.
Arguments Rows {number} rows.
Arguments NotAnArrayFlat {number}.
Arguments Flat {number} values.
Arguments usable {number} group frame_name.
Arguments process_frames {number} ToFloat32 ToUint8 group frame_names frames.
Arguments process_flat_frames {number} ToFloat32 ToUint8 group frame_names frames.
Arguments processH5File {number} ToFloat32 ToUint8 frames_group.
Arguments processH5File_flat {number} ToFloat32 ToUint8 frames_group.

End Archive.

(** ** Playback of an archive (PointCloudViewer.vue, [animate], lines 238-266)

    [animate] runs once per animation frame.  What it is passed as [time],
    whether that is falsy, and whether [time - lastFrameTime >= frameDuration]
    holds are parameters: the first call, [animate()], passes [undefined]. *)
Module Playback.

Section Animate.

Variable time : Type.
Variable falsy : time -> bool.          (* [!t] *)
Variable due : time -> time -> bool.    (* [t - last >= frameDuration] *)

Record player := {
  frames_length : nat;         (* [frames.length] *)
  currentFrameIndex : nat;
  lastFrameTime : time;
  isActive : bool;
  shown : list nat;            (* the indices [i] of [scene.add(frames[i])], oldest first *)
}.

(** [frames.length] is positive where [animate] runs, so [%] is [mod]. *)
Definition animate (t : time) (p : player) : player :=
  if negb (isActive p) then p
  else
    let last := if falsy (lastFrameTime p) then t else lastFrameTime p in
    let advance := due t last in
    let index :=
      if advance then ((currentFrameIndex p + 1) mod frames_length p)%nat
      else currentFrameIndex p in
    {| frames_length := frames_length p;
       currentFrameIndex := index;
       lastFrameTime := if advance then t else last;
       isActive := isActive p;
       shown := shown p ++ [index] |}.

(** The calls [requestAnimationFrame] makes, one per element of [times]. *)
Definition run (times : list time) (p : player) : player :=
  foldl (fun p t => animate t p) p times.

(** Each index follows the one before it: the same, or the next one around. *)
Fixpoint follows (len prev : nat) (indices : list nat) : Prop :=
  match indices with
  | [] => True
  | i :: rest => (i = prev \/ i = ((prev + 1) mod len)%nat) /\ follows len i rest
  end.

End Animate.

Arguments frames_length {time} p.
Arguments currentFrameIndex {time} p.
Arguments lastFrameTime {time} p.
Arguments isActive {time} p.
Arguments shown {time} p.
Arguments animate {time} falsy due t p.
Arguments run {time} falsy due times p.

End Playback.

(** ** Playback in the second reader (pointCloudWorker.js, [animate], lines
    271-295): one frame per call, a second apart *)
Module FlatPlayback.

Record player := {
  frames_length : nat;
  currentFrameIndex : nat;
  isActive : bool;
  shown : list nat;
}.

Definition animate (p : player) : player :=
  if negb (isActive p) then p
  else
    {| frames_length := frames_length p;
       currentFrameIndex := ((currentFrameIndex p + 1) mod frames_length p)%nat;
       isActive := isActive p;
       shown := shown p ++ [currentFrameIndex p] |}.

End FlatPlayback.

(** * Properties of the codec *)

Ltac bind_simpl := cbn [mbind completion_bind negb] in *.

Section CodecFacts.

Lemma u8_range b : 0 <= u8 b <= 255.
Proof.
  unfold u8. pose proof (Byte.to_N_bounded b). lia.
Qed.

Lemma take4_long {A} (l : list A) :
  (4 <= length l)%nat -> exists a b c d, take 4 l = [a; b; c; d].
Proof.
  destruct l as [|a [|b [|c [|d l]]]]; simpl; try lia. eauto.
Qed.

Lemma take4_short {A} (l : list A) a b c d :
  (length l < 4)%nat -> take 4 l <> [a; b; c; d].
Proof.
  destruct l as [|a' [|b' [|c' [|d' l]]]]; simpl; try lia; discriminate.
Qed.

Lemma getFloat32_in_bounds dv off :
  (off + 4 <= length dv)%nat -> exists v, getFloat32 dv off = Normal v.
Proof.
  intros H. unfold getFloat32.
  destruct (take4_long (drop off dv)) as (a & b & c & d & ->); eauto.
  rewrite length_drop. lia.
Qed.

Lemma getFloat32_out_of_bounds dv off :
  (length dv < off + 4)%nat -> getFloat32 dv off = Throw (ErrorObject RangeError).
Proof.
  intros H. unfold getFloat32.
  assert (Hs : (length (drop off dv) < 4)%nat) by (rewrite length_drop; lia).
  destruct (take 4 (drop off dv)) as [|a [|b [|c [|d [|x l]]]]] eqn:E; try reflexivity.
  exfalso. eapply take4_short; eauto.
Qed.

Lemma getUint32_in_bounds dv off :
  (off + 4 <= length dv)%nat -> exists n, getUint32 dv off = Normal n /\ 0 <= n.
Proof.
  intros H. unfold getUint32.
  destruct (take4_long (drop off dv)) as (a & b & c & d & ->).
  { rewrite length_drop. lia. }
  eexists; split; [reflexivity|].
  pose proof (u8_range a); pose proof (u8_range b);
    pose proof (u8_range c); pose proof (u8_range d). lia.
Qed.

Lemma getUint32_out_of_bounds dv off :
  (length dv < off + 4)%nat -> getUint32 dv off = Throw (ErrorObject RangeError).
Proof.
  intros H. unfold getUint32.
  assert (Hs : (length (drop off dv) < 4)%nat) by (rewrite length_drop; lia).
  destruct (take 4 (drop off dv)) as [|a [|b [|c [|d [|x l]]]]] eqn:E; try reflexivity.
  exfalso. eapply take4_short; eauto.
Qed.

Lemma getUint8_in_bounds dv off :
  (off < length dv)%nat -> exists c, getUint8 dv off = Normal c /\ 0 <= c <= 255.
Proof.
  intros H. unfold getUint8.
  destruct (lookup_lt_is_Some_2 dv off H) as [b ->].
  eexists; split; [reflexivity | apply u8_range].
Qed.

Lemma getUint8_out_of_bounds dv off :
  (length dv <= off)%nat -> getUint8 dv off = Throw (ErrorObject RangeError).
Proof.
  intros H. unfold getUint8. by rewrite lookup_ge_None_2.
Qed.

Lemma read_positions_in_bounds dv count off :
  (count = 0 \/ off + 4 * count <= length dv)%nat ->
  exists ps, read_positions dv count off = Normal ps /\ length ps = count.
Proof.
  revert off. induction count as [|k IH]; intros off H; simpl.
  - eauto.
  - destruct (getFloat32_in_bounds dv off) as [v ->]; [lia|].
    destruct (IH (off + 4)%nat) as (vs & -> & Hl); [lia|].
    simpl. eexists; split; [reflexivity | simpl; lia].
Qed.

Lemma read_positions_out_of_bounds dv count off :
  (0 < count)%nat -> (length dv < off + 4 * count)%nat ->
  read_positions dv count off = Throw (ErrorObject RangeError).
Proof.
  revert off. induction count as [|k IH]; intros off Hc H; [lia|]. simpl.
  destruct (decide (length dv < off + 4)%nat) as [Hs|Hs].
  - by rewrite getFloat32_out_of_bounds.
  - destruct (getFloat32_in_bounds dv off) as [v ->]; [lia|]. simpl.
    rewrite IH; [reflexivity | lia | lia].
Qed.

Lemma read_colors_in_bounds dv count off :
  (count = 0 \/ off + count <= length dv)%nat ->
  exists cs, read_colors dv count off = Normal cs /\ length cs = count
             /\ Forall (fun c => 0 <= c <= 255) cs.
Proof.
  revert off. induction count as [|k IH]; intros off H; simpl.
  - eauto.
  - destruct (getUint8_in_bounds dv off) as (c & -> & Hc); [lia|].
    destruct (IH (off + 1)%nat) as (cs & -> & Hl & Hr); [lia|].
    simpl. eexists; split; [reflexivity | split; [simpl; lia | by constructor]].
Qed.

Lemma read_colors_out_of_bounds dv count off :
  (0 < count)%nat -> (length dv < off + count)%nat ->
  read_colors dv count off = Throw (ErrorObject RangeError).
Proof.
  revert off. induction count as [|k IH]; intros off Hc H; [lia|]. simpl.
  destruct (decide (length dv <= off)%nat) as [Hs|Hs].
  - by rewrite getUint8_out_of_bounds.
  - destruct (getUint8_in_bounds dv off) as (c & -> & _); [lia|]. simpl.
    rewrite IH; [reflexivity | lia | lia].
Qed.

Lemma worker_read_colors_in_bounds dv count off :
  (count = 0 \/ off + count <= length dv)%nat ->
  exists cs, Worker.read_colors dv count off = Normal cs /\ length cs = count.
Proof.
  revert off. induction count as [|k IH]; intros off H; simpl.
  - eauto.
  - destruct (getUint8_in_bounds dv off) as (c & -> & Hc); [lia|].
    destruct (IH (off + 1)%nat) as (cs & -> & Hl); [lia|].
    simpl. eexists; split; [reflexivity | simpl; lia].
Qed.

Lemma worker_read_colors_out_of_bounds dv count off :
  (0 < count)%nat -> (length dv < off + count)%nat ->
  Worker.read_colors dv count off = Throw (ErrorObject RangeError).
Proof.
  revert off. induction count as [|k IH]; intros off Hc H; [lia|]. simpl.
  destruct (decide (length dv <= off)%nat) as [Hs|Hs].
  - by rewrite getUint8_out_of_bounds.
  - destruct (getUint8_in_bounds dv off) as (c & -> & _); [lia|]. simpl.
    rewrite IH; [reflexivity | lia | lia].
Qed.

Lemma parse_frame_long_enough raw :
  required_length raw <= Z.of_nat (length raw) ->
  exists f, parse_frame raw = Normal f /\ well_formed f
            /\ numPoints f = declared_pointCount raw
            /\ (is_Some (colorsArray f) <-> declared_hasColors raw = true).
Proof.
  unfold required_length, declared_pointCount, declared_hasColors, parse_frame.
  intros H.
  destruct (decide (length raw < 5)%nat) as [Hs|Hl].
  { exfalso. rewrite (getUint8_out_of_bounds raw 4) in H by lia.
    destruct (decide (length raw < 4)%nat) as [H4|H4].
    - rewrite (getUint32_out_of_bounds raw 0) in H by lia. lia.
    - destruct (getUint32_in_bounds raw 0) as (n & Hn & Hn0); [lia|].
      rewrite Hn in H. lia. }
  destruct (getUint32_in_bounds raw 0) as (n & Hn & Hn0); [lia|].
  destruct (getUint8_in_bounds raw 4) as (c & Hc & Hc0); [lia|].
  rewrite Hn, Hc in *. bind_simpl.
  destruct (read_positions_in_bounds raw (Z.to_nat (n * 3)) 5) as (ps & -> & Hps).
  { destruct (c =? 0); bind_simpl; lia. }
  bind_simpl. destruct (c =? 0) eqn:Ec; bind_simpl.
  - eexists; split; [reflexivity|]. unfold well_formed; simpl.
    repeat split; try lia; intros [? ?]; discriminate.
  - destruct (read_colors_in_bounds raw (Z.to_nat (n * 3)) (5 + 4 * Z.to_nat (n * 3)))
      as (cs & -> & Hcs & Hr); [lia|].
    bind_simpl. eexists; split; [reflexivity|]. unfold well_formed; simpl.
    repeat split; eauto; lia.
Qed.

Lemma parse_frame_truncated raw :
  Z.of_nat (length raw) < required_length raw ->
  parse_frame raw = Throw (ErrorObject RangeError).
Proof.
  unfold required_length, declared_pointCount, declared_hasColors, parse_frame.
  intros H.
  destruct (decide (length raw < 4)%nat) as [H4|H4].
  { by rewrite (getUint32_out_of_bounds raw 0) by lia. }
  destruct (getUint32_in_bounds raw 0) as (n & Hn & Hn0); [lia|].
  rewrite Hn in *. bind_simpl.
  destruct (decide (length raw < 5)%nat) as [H5|H5].
  { by rewrite (getUint8_out_of_bounds raw 4) by lia. }
  destruct (getUint8_in_bounds raw 4) as (c & Hc & Hc0); [lia|].
  rewrite Hc in *. bind_simpl.
  destruct (decide (Z.of_nat (length raw) < 5 + 12 * n)) as [Hp|Hp].
  { rewrite read_positions_out_of_bounds; [reflexivity | lia | lia]. }
  destruct (read_positions_in_bounds raw (Z.to_nat (n * 3)) 5) as (ps & -> & Hps); [lia|].
  bind_simpl. destruct (c =? 0); bind_simpl; [lia|].
  rewrite read_colors_out_of_bounds; [reflexivity | lia | lia].
Qed.

Lemma worker_parse_long_enough raw :
  required_length raw <= Z.of_nat (length raw) ->
  exists m, Worker.parse raw = Normal m
            /\ Worker.numPoints m = declared_pointCount raw
            /\ Z.of_nat (length (Worker.positions m)) = 3 * declared_pointCount raw.
Proof.
  unfold required_length, declared_pointCount, declared_hasColors, Worker.parse.
  intros H.
  destruct (decide (length raw < 5)%nat) as [Hs|Hl].
  { exfalso. rewrite (getUint8_out_of_bounds raw 4) in H by lia.
    destruct (decide (length raw < 4)%nat) as [H4|H4].
    - rewrite (getUint32_out_of_bounds raw 0) in H by lia. lia.
    - destruct (getUint32_in_bounds raw 0) as (n & Hn & Hn0); [lia|].
      rewrite Hn in H. lia. }
  destruct (getUint32_in_bounds raw 0) as (n & Hn & Hn0); [lia|].
  destruct (getUint8_in_bounds raw 4) as (c & Hc & Hc0); [lia|].
  rewrite Hn, Hc in *. bind_simpl.
  destruct (read_positions_in_bounds raw (Z.to_nat (n * 3)) 5) as (ps & -> & Hps).
  { destruct (c =? 0); bind_simpl; lia. }
  bind_simpl. destruct (c =? 0) eqn:Ec; bind_simpl.
  - eexists; split; [reflexivity|]. simpl. lia.
  - destruct (worker_read_colors_in_bounds raw (Z.to_nat (n * 3)) (5 + 4 * Z.to_nat (n * 3)))
      as (cs & -> & Hcs); [lia|].
    bind_simpl. eexists; split; [reflexivity|]. simpl. lia.
Qed.

Lemma worker_parse_truncated raw :
  Z.of_nat (length raw) < required_length raw ->
  Worker.parse raw = Throw (ErrorObject RangeError).
Proof.
  unfold required_length, declared_pointCount, declared_hasColors, Worker.parse.
  intros H.
  destruct (decide (length raw < 4)%nat) as [H4|H4].
  { by rewrite (getUint32_out_of_bounds raw 0) by lia. }
  destruct (getUint32_in_bounds raw 0) as (n & Hn & Hn0); [lia|].
  rewrite Hn in *. bind_simpl.
  destruct (decide (length raw < 5)%nat) as [H5|H5].
  { by rewrite (getUint8_out_of_bounds raw 4) by lia. }
  destruct (getUint8_in_bounds raw 4) as (c & Hc & Hc0); [lia|].
  rewrite Hc in *. bind_simpl.
  destruct (decide (Z.of_nat (length raw) < 5 + 12 * n)) as [Hp|Hp].
  { rewrite read_positions_out_of_bounds; [reflexivity | lia | lia]. }
  destruct (read_positions_in_bounds raw (Z.to_nat (n * 3)) 5) as (ps & -> & Hps); [lia|].
  bind_simpl. destruct (c =? 0); bind_simpl; [lia|].
  rewrite worker_read_colors_out_of_bounds; [reflexivity | lia | lia].
Qed.

End CodecFacts.

(** C2.  For every raw byte buffer, decoding succeeds exactly when the buffer
    holds at least [5 + 12*n + (hasColors ? 3*n : 0)] bytes, [n] and
    [hasColors] being what its header declares.  A long enough buffer decodes
    to a frame of [n] points with all [3*n] position components (and all
    [3*n] colour bytes when flagged); a shorter one makes the decoder throw
    the [DataView]'s [RangeError], never a shortened frame.  The worker's
    parser obeys the same bound. *)
Theorem C2_decode_succeeds_iff_buffer_long_enough (raw : list byte) :
  ((exists f, parse_frame raw = Normal f)
     <-> required_length raw <= Z.of_nat (length raw))
  /\ ((exists f, parse_frame raw = Normal f /\ well_formed f
                 /\ numPoints f = declared_pointCount raw
                 /\ (is_Some (colorsArray f) <-> declared_hasColors raw = true))
      \/ parse_frame raw = Throw (ErrorObject RangeError))
  /\ ((exists m, Worker.parse raw = Normal m)
        <-> required_length raw <= Z.of_nat (length raw))
  /\ ((exists m, Worker.parse raw = Normal m)
      \/ Worker.parse raw = Throw (ErrorObject RangeError)).
Proof.
  destruct (decide (required_length raw <= Z.of_nat (length raw))) as [H|H].
  - destruct (parse_frame_long_enough raw H) as (f & Hf & Hrest).
    destruct (worker_parse_long_enough raw H) as (m & Hm & _).
    repeat split; eauto.
  - assert (Ht : Z.of_nat (length raw) < required_length raw) by lia.
    pose proof (parse_frame_truncated raw Ht) as Hp.
    pose proof (worker_parse_truncated raw Ht) as Hw.
    repeat split; eauto; try (intros [? E]; congruence); try (intros; lia).
Qed.

(** * Properties of the buffer manager *)

Section StatementFacts.

Context {X : Type} (obs : viewer -> X).

Lemma preserves_skip : preserves obs skip.
Proof. by intros s. Qed.

Lemma preserves_throw e : preserves obs (throw e).
Proof. by intros s. Qed.

Lemma preserves_assign f : (forall s, obs (f s) = obs s) -> preserves obs (assign f).
Proof. intros H s. apply H. Qed.

Lemma obs_seq a b s :
  preserves obs b -> obs (state_of ((a ;; b)%stmt s)) = obs (state_of (a s)).
Proof.
  intros Hb. unfold seq. destruct (a s) as [s'|e s']; simpl; [apply Hb | done].
Qed.

Lemma preserves_seq a b : preserves obs a -> preserves obs b -> preserves obs (a ;; b)%stmt.
Proof. intros Ha Hb s. rewrite obs_seq by done. apply Ha. Qed.

Lemma preserves_ite c a b : preserves obs a -> preserves obs b -> preserves obs (ite c a b).
Proof. intros Ha Hb s. unfold ite. destruct (c s); [apply Ha | apply Hb]. Qed.

Lemma obs_try_catch body h s :
  (forall e, preserves obs (h e)) ->
  obs (state_of (try_catch body h s)) = obs (state_of (body s)).
Proof.
  intros Hh. unfold try_catch. destruct (body s) as [s'|e s']; simpl; [done | apply Hh].
Qed.

Lemma obs_try_finally body fin s :
  preserves obs fin ->
  obs (state_of (try_finally body fin s)) = obs (state_of (body s)).
Proof.
  intros Hf. unfold try_finally. destruct (body s) as [s'|e s']; simpl.
  - apply Hf.
  - specialize (Hf s'). by destruct (fin s').
Qed.

End StatementFacts.

Lemma seq_Done a b s s' :
  (a ;; b)%stmt s = Done s' -> exists s1, a s = Done s1 /\ b s1 = Done s'.
Proof. unfold seq. destruct (a s) as [s1|e s1]; [eauto | discriminate]. Qed.

Section ShapeFacts.

Lemma fmap_length_insert (h : list (list F32.t)) p a b :
  h !! p = Some a -> length b = length a -> length <$> <[p := b]> h = length <$> h.
Proof.
  intros Hp Hl. rewrite list_fmap_insert, Hl.
  apply list_insert_id. by rewrite list_lookup_fmap, Hp.
Qed.

Lemma fmap_length_alter (h : list (list F32.t)) f c :
  (forall a, length (f a) = length a) -> length <$> alter f c h = length <$> h.
Proof.
  intros Hf. rewrite (list_fmap_alter length f id).
  - by apply list_alter_id.
  - apply Forall_forall. intros a _. apply Hf.
Qed.

Lemma write_colors_length cs count i a : length (write_colors cs count i a) = length a.
Proof.
  revert i a. induction count as [|k IH]; intros i a; simpl; [done|].
  by rewrite IH, length_insert.
Qed.

Lemma positions_set_shape src : preserves shape_of (positions_set src).
Proof.
  intros s. unfold positions_set.
  destruct (positions s) as [p|] eqn:Hp; [|done].
  destruct (heap s !! p) as [target|] eqn:Ht; [|done].
  destruct (length src <=? length target)%nat eqn:Hle; [|done].
  apply Nat.leb_le in Hle. unfold shape_of; simpl.
  rewrite (fmap_length_insert _ _ target); [done | done |].
  rewrite length_app, length_drop. lia.
Qed.

Lemma position_needsUpdate_shape : preserves shape_of position_needsUpdate.
Proof.
  intros s. unfold position_needsUpdate.
  destruct (attr_position s) as [a|] eqn:Ha; [|done].
  unfold shape_of; simpl. by rewrite Ha.
Qed.

Lemma color_needsUpdate_shape : preserves shape_of color_needsUpdate.
Proof.
  intros s. unfold color_needsUpdate.
  destruct (attr_color s) as [a|] eqn:Ha; [|done].
  unfold shape_of; simpl. by rewrite Ha.
Qed.

Lemma store_color_shape cs i : preserves shape_of (store_color cs i).
Proof.
  intros s. unfold store_color. destruct (colors s) as [c|]; [|done].
  unfold shape_of; simpl. rewrite fmap_length_alter; [done|].
  intros a. apply length_insert.
Qed.

Lemma store_colors_shape cs count i : preserves shape_of (store_colors cs count i).
Proof.
  revert i. induction count as [|k IH]; intros i; simpl.
  - apply preserves_skip.
  - apply preserves_seq; [apply store_color_shape | apply IH].
Qed.

(** Everything [updatePointCloud] does after the capacity check leaves the
    allocation state alone. *)
Lemma updatePointCloud_shape pa ca n s :
  shape_of (state_of (updatePointCloud pa ca n s))
  = shape_of (state_of (ite (fun s => maxPoints s <? n) (reallocate ca n) skip s)).
Proof.
  unfold updatePointCloud, updatePointCloud_try.
  rewrite obs_try_finally by (by apply preserves_assign).
  rewrite obs_try_catch
    by (intros e; apply preserves_seq; by apply preserves_assign).
  apply obs_seq.
  repeat apply preserves_seq;
    auto using positions_set_shape, position_needsUpdate_shape.
  - destruct ca; [|apply preserves_skip].
    apply preserves_seq; [apply store_colors_shape | apply color_needsUpdate_shape].
  - by apply preserves_assign.
  - apply preserves_ite; [|apply preserves_skip].
    apply preserves_seq; by apply preserves_assign.
Qed.

End ShapeFacts.

Section CapacityFacts.

(** The allocation state after the capacity check. *)
Lemma capacity_check_shape ca n s :
  shape_of (state_of (ite (fun s => maxPoints s <? n) (reallocate ca n) skip s))
  = if maxPoints s <? n then
      match ca with
      | Some _ =>
          (n, Some (length (heap s)), Some (S (length (heap s))),
           (length <$> heap s) ++ [Z.to_nat (n * 3); Z.to_nat (n * 3)], true, true)
      | None =>
          (n, Some (length (heap s)), colors s,
           (length <$> heap s) ++ [Z.to_nat (n * 3)], true, false)
      end
    else shape_of s.
Proof.
  unfold ite. destruct (maxPoints s <? n); [|done].
  unfold reallocate, shape_of, seq, assign, new_Float32Array.
  destruct ca; cbn.
  - rewrite !fmap_app, !length_app, <- app_assoc. cbn.
    rewrite !length_replicate. by rewrite Nat.add_1_r.
  - rewrite !fmap_app. cbn. by rewrite !length_replicate.
Qed.

Lemma ingest_shape f s :
  shape_of (state_of (ingest f s))
  = if maxPoints s <? numPoints f then
      match colorsArray f with
      | Some _ =>
          (numPoints f, Some (length (heap s)), Some (S (length (heap s))),
           (length <$> heap s) ++ [Z.to_nat (numPoints f * 3); Z.to_nat (numPoints f * 3)],
           true, true)
      | None =>
          (numPoints f, Some (length (heap s)), colors s,
           (length <$> heap s) ++ [Z.to_nat (numPoints f * 3)], true, false)
      end
    else shape_of s.
Proof. unfold ingest. rewrite updatePointCloud_shape. apply capacity_check_shape. Qed.

Lemma ingest_maxPoints f s :
  maxPoints (state_of (ingest f s)) = Z.max (maxPoints s) (numPoints f).
Proof.
  pose proof (ingest_shape f s) as H. unfold shape_of in H at 1.
  destruct (maxPoints s <? numPoints f) eqn:E.
  - apply Z.ltb_lt in E. destruct (colorsArray f); injection H as -> _ _ _ _ _; lia.
  - apply Z.ltb_ge in E. unfold shape_of in H. injection H as -> _ _ _ _ _. lia.
Qed.

Lemma ingest_all_maxPoints history s :
  maxPoints (ingest_all history s) = fold_left Z.max (numPoints <$> history) (maxPoints s).
Proof.
  revert s. induction history as [|f history IH]; intros s; [done|].
  cbn. unfold ingest_all in IH. by rewrite IH, ingest_maxPoints.
Qed.

End CapacityFacts.

(** C1.  Capacity tracks the high-water mark of the frame sizes.  In any
    state of the session: a frame with more points than the capacity makes
    ingest allocate a new position array of exactly that frame's [3*pointCount]
    elements (and, when the frame carries colours, a new colour array of the
    same size), and the capacity becomes that point count; a frame that fits
    allocates nothing and leaves the capacity, both storage variables and every
    array length as they were.  So the capacity never decreases, and after any
    history it is the largest point count seen. *)
Theorem C1_capacity_tracks_high_water_mark
    (s : viewer) (f : DecodedFrame) (history : list DecodedFrame) :
  let s' := state_of (ingest f s) in
  (maxPoints s < numPoints f ->
     maxPoints s' = numPoints f
     /\ (exists p, positions s' = Some p /\ heap s !! p = None
                   /\ length <$> heap s' !! p = Some (Z.to_nat (numPoints f * 3)))
     /\ (is_Some (colorsArray f) ->
         exists c, colors s' = Some c /\ heap s !! c = None /\ positions s' <> Some c
                   /\ length <$> heap s' !! c = Some (Z.to_nat (numPoints f * 3))))
  /\ (numPoints f <= maxPoints s ->
      maxPoints s' = maxPoints s /\ positions s' = positions s /\ colors s' = colors s
      /\ length <$> heap s' = length <$> heap s)
  /\ maxPoints s <= maxPoints s'
  /\ maxPoints (ingest_all history s)
     = fold_left Z.max (numPoints <$> history) (maxPoints s)
  /\ maxPoints s <= maxPoints (ingest_all history s).
Proof.
  intros s'. pose proof (ingest_shape f s) as H. fold s' in H.
  unfold shape_of in H at 1.
  split; [|split; [|split; [|split]]].
  - intros Hlt. apply Z.ltb_lt in Hlt. rewrite Hlt in H.
    destruct (colorsArray f) as [cs|]; injection H as Hm Hp Hc Hl _ _.
    + split; [done|]. split.
      * exists (length (heap s)). split; [done|]. split.
        { by apply lookup_ge_None_2. }
        rewrite <- list_lookup_fmap, Hl.
        rewrite lookup_app_r by (by rewrite length_fmap).
        by rewrite length_fmap, Nat.sub_diag.
      * intros _. exists (S (length (heap s))). split; [done|]. split.
        { apply lookup_ge_None_2. lia. }
        split; [rewrite Hp; intros [= E]; lia|].
        rewrite <- list_lookup_fmap, Hl.
        rewrite lookup_app_r by (rewrite length_fmap; lia).
        rewrite length_fmap.
        by replace (S (length (heap s)) - length (heap s))%nat with 1%nat by lia.
    + split; [done|]. split.
      * exists (length (heap s)). split; [done|]. split.
        { by apply lookup_ge_None_2. }
        rewrite <- list_lookup_fmap, Hl.
        rewrite lookup_app_r by (by rewrite length_fmap).
        by rewrite length_fmap, Nat.sub_diag.
      * intros [? ?]; discriminate.
  - intros Hle. apply Z.ltb_ge in Hle. rewrite Hle in H.
    unfold shape_of in H. by injection H as -> -> -> -> _ _.
  - subst s'. rewrite ingest_maxPoints. lia.
  - apply ingest_all_maxPoints.
  - rewrite ingest_all_maxPoints. generalize (maxPoints s) as m.
    induction (numPoints <$> history) as [|n l IH]; intros m; cbn; [lia|].
    specialize (IH (Z.max m n)). lia.
Qed.

(** * Properties of the frame sequencer *)

Section SortFacts.

(** A comparator that subtracts keys where both arguments are acceptable and
    throws [E] as soon as one is not. *)
Context {A : Type} (comparefn : A -> A -> completion Z).
Context (key : A -> Z) (ok : A -> bool) (E : thrown).
Hypothesis comparefn_ok :
  forall a b, ok a = true -> ok b = true -> comparefn a b = Normal (key a - key b).
Hypothesis comparefn_throws :
  forall a b, ok a = false \/ ok b = false -> comparefn a b = Throw E.

Let ascending (a b : A) : Prop := key a <= key b.

Lemma filter_key_cons k (x : A) l :
  filter (fun a => key a = k) (x :: l)
  = if decide (key x = k) then x :: filter (fun a => key a = k) l
    else filter (fun a => key a = k) l.
Proof. rewrite filter_cons. by destruct (decide (key x = k)). Qed.

Lemma insert_sorted_total x l :
  ok x = true -> Forall (fun a => ok a = true) l ->
  exists r, insert_sorted comparefn x l = Normal r
            /\ r ≡ₚ x :: l
            /\ (StronglySorted ascending l -> StronglySorted ascending r)
            /\ forall k, filter (fun a => key a = k) r
                         = filter (fun a => key a = k) (x :: l).
Proof.
  intros Hx. induction 1 as [|y ys Hy Hys IH]; simpl.
  - exists [x]. repeat split; auto. intros _. repeat constructor.
  - rewrite comparefn_ok by done. bind_simpl.
    destruct (key x - key y <=? 0) eqn:Hle.
    + apply Z.leb_le in Hle. exists (x :: y :: ys). repeat split; auto.
      intros Hs. constructor; [done|].
      apply StronglySorted_cons in Hs as [Hall _].
      constructor; [unfold ascending; lia|].
      eapply Forall_impl; [exact Hall|]. unfold ascending. intros; simpl in *; lia.
    + apply Z.leb_gt in Hle.
      destruct IH as (r & -> & Hperm & Hsorted & Hstable). bind_simpl.
      exists (y :: r). split; [done|]. split; [|split].
      * rewrite Hperm. apply Permutation_swap.
      * intros Hs. apply StronglySorted_cons in Hs as [Hall Hs].
        constructor; [auto|]. rewrite Hperm.
        constructor; [unfold ascending; lia | done].
      * intros k. rewrite (filter_key_cons k y r), Hstable, !filter_key_cons.
        repeat case_decide; try done; lia.
Qed.

Lemma Array_sort_total l :
  Forall (fun a => ok a = true) l ->
  exists r, Array_sort comparefn l = Normal r
            /\ r ≡ₚ l
            /\ StronglySorted ascending r
            /\ forall k, filter (fun a => key a = k) r = filter (fun a => key a = k) l.
Proof.
  induction 1 as [|x xs Hx Hxs IH]; simpl.
  - exists []. repeat split; auto. constructor.
  - destruct IH as (r0 & -> & Hperm & Hsorted & Hstable). bind_simpl.
    destruct (insert_sorted_total x r0) as (r & Hr & Hp & Hs & Hst); [done | by rewrite Hperm |].
    exists r. split; [done|]. split; [by rewrite Hp, Hperm|]. split; [auto|].
    intros k. by rewrite Hst, !filter_key_cons, Hstable.
Qed.

Lemma Array_sort_short l :
  (length l < 2)%nat -> Array_sort comparefn l = Normal l.
Proof. destruct l as [|x [|y l]]; simpl; [done | done | lia]. Qed.

Lemma insert_sorted_throws x y ys :
  ok x = false \/ ok y = false -> insert_sorted comparefn x (y :: ys) = Throw E.
Proof. intros H. simpl. by rewrite comparefn_throws. Qed.

Lemma Array_sort_throws l :
  (2 <= length l)%nat -> Exists (fun a => ok a = false) l ->
  Array_sort comparefn l = Throw E.
Proof.
  induction l as [|x xs IH]; simpl; [lia|]. intros Hlen Hex.
  destruct (decide (Forall (fun a => ok a = true) xs)) as [Hall|Hnot].
  - destruct (Array_sort_total xs Hall) as (r0 & -> & Hperm & _). bind_simpl.
    destruct r0 as [|y r0].
    { apply Permutation_length in Hperm. simpl in Hperm. lia. }
    apply insert_sorted_throws. left.
    apply Exists_cons in Hex as [Hx|Hxs]; [done|].
    apply Exists_exists in Hxs as (z & Hz & Hbad).
    rewrite Forall_forall in Hall. specialize (Hall z Hz). congruence.
  - assert (Hbad : Exists (fun a => ok a = false) xs).
    { apply not_Forall_Exists in Hnot; [|apply _].
      eapply Exists_impl; [exact Hnot|]. intros a. simpl. by destruct (ok a). }
    destruct xs as [|z [|z' xs]].
    + simpl in Hlen. lia.
    + apply Exists_cons in Hbad as [Hz|Hnil]; [|by apply Exists_nil in Hnil].
      simpl. bind_simpl. rewrite comparefn_throws; auto.
    + rewrite IH; [done | simpl; lia | done].
Qed.

End SortFacts.

Section FrameNameFacts.

Lemma compare_frame_names_ok a b :
  has_digits a = true -> has_digits b = true ->
  compare_frame_names a b = Normal (frame_key a - frame_key b).
Proof.
  unfold has_digits, compare_frame_names, frame_number, frame_key.
  destruct (match_digits a), (match_digits b); simpl; done.
Qed.

Lemma compare_frame_names_throws a b :
  has_digits a = false \/ has_digits b = false ->
  compare_frame_names a b = Throw (ErrorObject TypeError).
Proof.
  unfold has_digits, compare_frame_names, frame_number.
  destruct (match_digits a), (match_digits b); simpl; intros [?|?]; done.
Qed.

End FrameNameFacts.

Section NumericSubstringFacts.

Lemma decimal_digit_is_digit c :
  decimal_digit c
  = if is_digit c then Some (Z.of_nat (nat_of_ascii c) - 48) else None.
Proof. destruct c as [[] [] [] [] [] [] [] []]; vm_compute; reflexivity. Qed.

Lemma leading_digits_digit_run s : leading_digits s = digit_run s.
Proof.
  induction s as [|c s IH]; cbn [leading_digits digit_run]; [done|].
  rewrite decimal_digit_is_digit. destruct (is_digit c); [by rewrite IH | done].
Qed.

Lemma numeric_substring_match_digits a :
  match_digits a
  = if decide (numeric_substring a = EmptyString) then None
    else Some (numeric_substring a).
Proof.
  induction a as [|c s IH]; cbn [numeric_substring match_digits]; [done|].
  rewrite decimal_digit_is_digit. destruct (is_digit c); [|exact IH].
  rewrite decide_False by done. by rewrite leading_digits_digit_run.
Qed.

Lemma numeric_substring_is_run a : exists t, numeric_substring a = digit_run t.
Proof.
  induction a as [|c s IH]; cbn [numeric_substring]; [by exists EmptyString|].
  rewrite decimal_digit_is_digit. destruct (is_digit c) eqn:E; [|exact IH].
  exists (String c s). cbn [digit_run]. by rewrite E, leading_digits_digit_run.
Qed.

Lemma decimal_value_numeral s acc :
  decimal_value acc (digit_run s)
  = acc * 10 ^ Z.of_nat (String.length (digit_run s)) + numeral (digit_run s).
Proof.
  revert acc. induction s as [|c s IH]; intros acc; cbn [digit_run].
  - cbn. lia.
  - destruct (is_digit c) eqn:E; [|cbn; lia].
    cbn [decimal_value numeral String.length]. rewrite IH, decimal_digit_is_digit, E.
    cbn [default]. unfold id. rewrite Nat2Z.inj_succ, Z.pow_succ_r by lia. ring.
Qed.

Lemma numeral_digit_run_nonneg s : 0 <= numeral (digit_run s).
Proof.
  induction s as [|c s IH]; cbn [digit_run]; [done|].
  destruct (is_digit c) eqn:E; [|done].
  cbn [numeral]. rewrite decimal_digit_is_digit, E. cbn [default]. unfold id.
  assert (0 <= Z.of_nat (nat_of_ascii c) - 48).
  { unfold is_digit in E. apply andb_true_iff in E as [E _].
    apply Nat.leb_le in E. lia. }
  assert (0 <= 10 ^ Z.of_nat (String.length (digit_run s))) by (apply Z.pow_nonneg; lia).
  nia.
Qed.

Lemma rne_div_by_one p : F32.rne_div p 1 = p.
Proof. unfold F32.rne_div. rewrite Z.mod_1_r, Z.div_1_r. reflexivity. Qed.

Lemma to_Number_below_2_53 z : 0 <= z < 2 ^ 53 -> to_Number z = z.
Proof.
  intros [Hz Hlt]. unfold to_Number.
  destruct (z <=? 0) eqn:E; [apply Z.leb_le in E; lia|].
  apply Z.leb_gt in E.
  unfold F32.round_sig. change (Z.log2 1) with 0. rewrite Z.sub_0_r.
  pose proof (Z.log2_spec z E) as [Hlo Hhi].
  pose proof (Z.log2_nonneg z) as Hnn.
  assert (He : Z.log2 z <= 52).
  { destruct (Z_le_gt_dec (Z.log2 z) 52) as [|Hgt]; [done|].
    assert (2 ^ 53 <= 2 ^ Z.log2 z) by (apply Z.pow_le_mono_r; lia). lia. }
  rewrite (Z.max_l 0 (- Z.log2 z)) by lia. rewrite (Z.max_r 0 (Z.log2 z)) by lia.
  rewrite Z.pow_0_r, Z.mul_1_r, Z.mul_1_l.
  replace (z <? 2 ^ Z.log2 z) with false by (symmetry; apply Z.ltb_ge; lia).
  rewrite (Z.max_r 0 (53 - 1 - Z.log2 z)) by lia.
  rewrite (Z.max_l 0 (- (53 - 1 - Z.log2 z))) by lia.
  rewrite Z.pow_0_r, Z.mul_1_l, rne_div_by_one.
  set (k := 53 - 1 - Z.log2 z).
  assert (Hk : 0 <= k) by (subst k; lia).
  assert (Hpow : 2 ^ Z.succ (Z.log2 z) * 2 ^ k = 2 ^ 53).
  { rewrite <- Z.pow_add_r by lia. f_equal. subst k. lia. }
  assert (Hkpos : 0 < 2 ^ k) by (apply Z.pow_pos_nonneg; lia).
  assert (Hm : z * 2 ^ k < 2 ^ 53) by nia.
  replace (z * 2 ^ k =? 2 ^ 53) with false by (symmetry; apply Z.eqb_neq; lia).
  replace (Z.log2 z - (53 - 1)) with (- k) by (subst k; lia).
  rewrite (Z.max_l 0 (- k)) by lia. rewrite Z.opp_involutive, (Z.max_r 0 k) by lia.
  rewrite Z.pow_0_r, Z.mul_1_r, Z.div_mul by lia.
  apply Z.min_l. assert (2 ^ 53 <= 2 ^ 1024) by (apply Z.pow_le_mono_r; lia). lia.
Qed.

(** Where the number of a name is below [2^53], [parseInt] yields it. *)
Lemma frame_number_number_in a :
  numeric_substring a <> EmptyString -> number_in a < 2 ^ 53 ->
  frame_number a = Normal (number_in a).
Proof.
  intros Hrun Hlt. unfold frame_number, parseInt, number_in in *.
  rewrite numeric_substring_match_digits, decide_False by done.
  destruct (numeric_substring_is_run a) as [t Ht]. rewrite Ht in *.
  rewrite decimal_value_numeral, Z.mul_0_l, Z.add_0_l.
  rewrite to_Number_below_2_53; [done|].
  split; [apply numeral_digit_run_nonneg | done].
Qed.

Lemma compare_frame_names_number_in a b :
  bool_decide (numeric_substring a <> EmptyString /\ number_in a < 2 ^ 53) = true ->
  bool_decide (numeric_substring b <> EmptyString /\ number_in b < 2 ^ 53) = true ->
  compare_frame_names a b = Normal (number_in a - number_in b).
Proof.
  intros [Ha Ha']%bool_decide_eq_true [Hb Hb']%bool_decide_eq_true.
  unfold compare_frame_names.
  by rewrite !frame_number_number_in by done.
Qed.

End NumericSubstringFacts.

(** C9, as stated, fails beyond [2^53]: the comparator subtracts the doubles
    [parseInt] yields, and the numbers of these two names round to the same
    double, so the names keep their input order, the larger number first. *)
Lemma C9_numbers_beyond_2_53_keep_input_order :
  sort_frame_names ["frame9007199254740993"; "frame9007199254740992"]%string
  = Normal ["frame9007199254740993"; "frame9007199254740992"]%string
  /\ number_in "frame9007199254740993" = 9007199254740993
  /\ number_in "frame9007199254740992" = 9007199254740992.
Proof. split; [|split]; vm_compute; reflexivity. Qed.

(** C9, amended.  The numeric substring of a name is its first maximal run of
    decimal digits, and its number the integer that run spells.  Whenever
    every name holds a digit and every number is below [2^53], the sort
    returns a permutation of the names that is ascending by number and in
    which the names of any one number stand in their original order.  In
    particular frame10, frame2, frame1 sort to frame1, frame2, frame10. *)
Theorem C9_frame_names_sorted_by_number (frame_names : list string) :
  Forall (fun a => numeric_substring a <> EmptyString /\ number_in a < 2 ^ 53)
    frame_names ->
  (exists sorted,
      sort_frame_names frame_names = Normal sorted
      /\ sorted ≡ₚ frame_names
      /\ StronglySorted (fun a b => number_in a <= number_in b) sorted
      /\ forall k, filter (fun a => number_in a = k) sorted
                   = filter (fun a => number_in a = k) frame_names)
  /\ sort_frame_names ["frame10"; "frame2"; "frame1"]%string
     = Normal ["frame1"; "frame2"; "frame10"]%string
  /\ number_in <$> ["frame1"; "frame2"; "frame10"]%string = [1; 2; 10].
Proof.
  intros Hall. split; [|split; vm_compute; reflexivity].
  apply (Array_sort_total compare_frame_names number_in
           (fun a => bool_decide (numeric_substring a <> EmptyString
                                  /\ number_in a < 2 ^ 53))).
  - apply compare_frame_names_number_in.
  - eapply Forall_impl; [exact Hall|]. intros a Ha. by apply bool_decide_eq_true.
Qed.

Lemma C9_witness :
  (exists sorted,
      sort_frame_names ["b7"; "a7"; "c3"]%string = Normal sorted
      /\ sorted ≡ₚ ["b7"; "a7"; "c3"]%string
      /\ StronglySorted (fun a b => number_in a <= number_in b) sorted
      /\ forall k, filter (fun a => number_in a = k) sorted
                   = filter (fun a => number_in a = k) ["b7"; "a7"; "c3"]%string)
  /\ sort_frame_names ["frame10"; "frame2"; "frame1"]%string
     = Normal ["frame1"; "frame2"; "frame10"]%string
  /\ number_in <$> ["frame1"; "frame2"; "frame10"]%string = [1; 2; 10].
Proof.
  apply (C9_frame_names_sorted_by_number ["b7"; "a7"; "c3"]%string).
  repeat (constructor; [split; vm_compute; [discriminate | reflexivity]|]).
  constructor.
Defined.

(** C10, as stated, fails on an archive with a single frame whose name has
    no digit: the comparator is never called and the sort returns the name. *)
Lemma C10_single_digitless_name_sorts :
  match_digits "frame" = None
  /\ sort_frame_names ["frame"%string] = Normal ["frame"%string].
Proof. split; reflexivity. Qed.

(** C10, amended.  The sort throws a [TypeError] exactly when the archive has
    at least two frame names and one of them holds no decimal digit; it
    returns normally exactly when there are fewer than two names or every
    name holds a digit, and with fewer than two names it returns them as they
    are. *)
Theorem C10_sort_throws_iff_digitless_among_two_or_more (frame_names : list string) :
  (sort_frame_names frame_names = Throw (ErrorObject TypeError)
   <-> (2 <= length frame_names)%nat
       /\ Exists (fun a => match_digits a = None) frame_names)
  /\ ((exists sorted, sort_frame_names frame_names = Normal sorted)
      <-> (length frame_names < 2)%nat
          \/ Forall (fun a => is_Some (match_digits a)) frame_names)
  /\ ((length frame_names < 2)%nat -> sort_frame_names frame_names = Normal frame_names).
Proof.
  assert (Hbad : forall a, has_digits a = false <-> match_digits a = None).
  { intros a. unfold has_digits. destruct (match_digits a); simpl; split; done. }
  assert (Hgood : forall a, has_digits a = true <-> is_Some (match_digits a)).
  { intros a. unfold has_digits. destruct (match_digits a); simpl; split;
      try done; eauto; intros [? ?]; done. }
  assert (Hshort : (length frame_names < 2)%nat ->
                   sort_frame_names frame_names = Normal frame_names).
  { apply Array_sort_short. }
  assert (Hthrows : (2 <= length frame_names)%nat ->
                    Exists (fun a => match_digits a = None) frame_names ->
                    sort_frame_names frame_names = Throw (ErrorObject TypeError)).
  { intros Hlen Hex.
    apply (Array_sort_throws compare_frame_names frame_key has_digits);
      auto using compare_frame_names_ok, compare_frame_names_throws.
    eapply Exists_impl; [exact Hex|]. intros a. apply Hbad. }
  assert (Htotal : Forall (fun a => is_Some (match_digits a)) frame_names ->
                   exists sorted, sort_frame_names frame_names = Normal sorted).
  { intros Hall.
    destruct (Array_sort_total compare_frame_names frame_key has_digits
                compare_frame_names_ok frame_names) as (r & Hr & _); [|eauto].
    eapply Forall_impl; [exact Hall|]. intros a. apply Hgood. }
  assert (Hex : ~ Forall (fun a => is_Some (match_digits a)) frame_names ->
                Exists (fun a => match_digits a = None) frame_names).
  { intros Hnot. apply not_Forall_Exists in Hnot; [|apply _].
    eapply Exists_impl; [exact Hnot|]. intros a Ha. simpl in Ha.
    destruct (match_digits a); [exfalso; eauto | done]. }
  split; [split|split; [split|exact Hshort]].
  - intros Ethrow.
    destruct (decide (length frame_names < 2)%nat) as [Hlt|Hge].
    { rewrite Hshort in Ethrow by done. discriminate. }
    destruct (decide (Forall (fun a => is_Some (match_digits a)) frame_names)) as [Hall|Hnot].
    { destruct (Htotal Hall) as [r Hr]. rewrite Hr in Ethrow. discriminate. }
    split; [lia | auto].
  - intros [Hlen Hnone]. by apply Hthrows.
  - intros [r Hr].
    destruct (decide (length frame_names < 2)%nat) as [Hlt|Hge]; [by left|].
    destruct (decide (Forall (fun a => is_Some (match_digits a)) frame_names)) as [Hall|Hnot];
      [by right|].
    rewrite Hthrows in Hr; [discriminate | lia | auto].
  - intros [Hlt|Hall]; [rewrite Hshort by done; eauto | auto].
Qed.

(** * The failing paths of the buffer manager and of the admission flag *)

(** A closed equation between values of the model, by evaluation. *)
Ltac eval_eq := vm_compute; reflexivity.

(** A concrete frame is well formed. *)
Ltac frame_ok :=
  unfold well_formed; vm_compute;
  repeat match goal with
         | |- _ /\ _ => split
         | |- Forall _ _ => constructor
         | |- _ = _ => reflexivity
         | |- True => exact I
         | |- _ -> False => discriminate
         end.

Ltac split_all := cbv zeta; repeat match goal with |- _ /\ _ => split end.

(** C7.  Zero points decode to an empty position sequence, but ingesting
    that frame as the first frame of a session raises: no position array has
    been allocated yet (the capacity check [0 < 0] fails), so [positions.set]
    is called on [undefined].  The [TypeError] is caught, logged and shown as
    'Error updating point cloud'; the draw range is not set. *)
Theorem C7_empty_first_frame_raises :
  parse_frame [x00; x00; x00; x00; x00] = Normal empty_frame
  /\ positionsArray empty_frame = []
  /\ well_formed empty_frame
  /\ raised (updatePointCloud_try [] None 0 initial_viewer) = Some (ErrorObject TypeError)
  /\ ingest empty_frame initial_viewer
     = Done (set_error_value (Some "Error updating point cloud"%string)
               (log (ErrorUpdating (ErrorObject TypeError)) initial_viewer))
  /\ drawRange_count (state_of (ingest empty_frame initial_viewer)) = None.
Proof.
  split_all; solve [eval_eq | frame_ok].
Qed.

(** C4.  Ingest raises on a well-formed frame with colours that follows a
    well-formed frame without colours and fits the capacity: the colour array
    is only allocated inside the reallocation branch, so the colour loop
    stores into [undefined].  The [TypeError] is caught, logged and shown as
    'Error updating point cloud'. *)
Theorem C4_coloured_frame_after_plain_frame_raises :
  well_formed plain_frame_2 /\ well_formed coloured_frame_1
  /\ error_value (ingest_all [plain_frame_2] initial_viewer) = None
  /\ raised (updatePointCloud_try (positionsArray coloured_frame_1)
               (colorsArray coloured_frame_1) (numPoints coloured_frame_1)
               (ingest_all [plain_frame_2] initial_viewer))
     = Some (ErrorObject TypeError)
  /\ error_value (ingest_all [plain_frame_2; coloured_frame_1] initial_viewer)
     = Some "Error updating point cloud"%string
  /\ trace (ingest_all [plain_frame_2; coloured_frame_1] initial_viewer)
     = [FitCamera; ErrorUpdating (ErrorObject TypeError)].
Proof.
  split_all; solve [eval_eq | frame_ok].
Qed.

(** C5.  After the same two frames the positions of the second frame have
    been copied in, but the draw range still shows the two points of the first
    frame: the throw in the colour loop skips [setDrawRange]. *)
Theorem C5_draw_range_stale_after_raise :
  let s := ingest_all [plain_frame_2; coloured_frame_1] initial_viewer in
  well_formed coloured_frame_1
  /\ take 3 <$> deref s (positions s) = Some (positionsArray coloured_frame_1)
  /\ numPoints coloured_frame_1 = 1
  /\ drawRange_count s = Some 2.
Proof.
  split_all; solve [eval_eq | frame_ok].
Qed.

(** C6.  A frame without colours that follows a frame with colours and fits
    the capacity leaves the colour attribute on the geometry and
    [material.vertexColors] set: nothing signals that colours are disabled.
    Only a frame that also exceeds the capacity deletes the attribute and
    clears the flag.  The colour array itself stays as it was in both cases. *)
Theorem C6_no_signal_without_reallocation :
  let s1 := ingest_all [coloured_frame_2] initial_viewer in
  let s2 := ingest_all [coloured_frame_2; plain_frame_1] initial_viewer in
  let s3 := ingest_all [coloured_frame_1; plain_frame_2] initial_viewer in
  (attr_color s1 = Some {| array := 1%nat; version := 1 |} /\ vertexColors s1 = true)
  /\ (attr_color s2 = Some {| array := 1%nat; version := 1 |} /\ vertexColors s2 = true
      /\ error_value s2 = None
      /\ colors s2 = colors s1 /\ deref s2 (colors s2) = deref s1 (colors s1))
  /\ (attr_color s3 = None /\ vertexColors s3 = false
      /\ colors s3 = Some 1%nat
      /\ deref s3 (colors s3)
         = deref (ingest_all [coloured_frame_1] initial_viewer) (Some 1%nat)).
Proof.
  split_all; eval_eq.
Qed.

Section AdmissionFacts.

Variable inflate : list byte -> completion (list byte).

(** A message that arrives while the flag is set is logged and dropped:
    nothing else changes, and the decompressor is not called. *)
Lemma handleWebSocketMessage_busy data s :
  isProcessing s = true ->
  handleWebSocketMessage inflate data s = Done (log LogBounced s).
Proof.
  intros Hbusy. unfold handleWebSocketMessage, ite. by rewrite Hbusy.
Qed.

Lemma handleWebSocketMessage_thrown_string data msg s :
  isProcessing s = false ->
  inflate data = Throw (PrimitiveString msg) ->
  handleWebSocketMessage inflate data s
  = Raised (ErrorObject TypeError)
      (log (ErrorParsing (PrimitiveString msg))
         (log (PakoInflate data) (set_isProcessing true s))).
Proof.
  intros Hidle Hthrow.
  unfold handleWebSocketMessage, ite, parsePointCloudData, try_catch, seq, assign, throw.
  rewrite Hidle, Hthrow. reflexivity.
Qed.

(** Once the flag is stuck, every further message only adds a log line. *)
Lemma deliver_busy messages s :
  isProcessing s = true ->
  deliver inflate messages s
  = set_trace (trace s ++ replicate (length messages) LogBounced) s.
Proof.
  revert s. induction messages as [|m messages IH]; intros s Hbusy; simpl.
  - rewrite app_nil_r. by destruct s.
  - rewrite handleWebSocketMessage_busy by done. simpl.
    rewrite IH by done. unfold log, set_trace. cbn.
    by rewrite <- app_assoc.
Qed.

End AdmissionFacts.

(** C3.  A payload on which the decompressor throws a string leaves the
    processing flag set for good.  The catch clause of [parsePointCloudData]
    names its parameter [error], so [error.value = ...] assigns to the thrown
    value; on a string that assignment throws a [TypeError] and
    [isProcessing = false] on the next line is never reached.  Every later
    message is then dropped without being decompressed: the rest of the
    stream only adds 'Bouncing frame' lines to the console. *)
Theorem C3_thrown_string_leaves_flag_set
    (inflate : list byte -> completion (list byte)) (data : list byte)
    (msg : string) (s : viewer) :
  isProcessing s = false ->
  inflate data = Throw (PrimitiveString msg) ->
  let o := handleWebSocketMessage inflate data s in
  raised o = Some (ErrorObject TypeError)
  /\ isProcessing (state_of o) = true
  /\ (forall later,
        handleWebSocketMessage inflate later (state_of o)
        = Done (log LogBounced (state_of o)))
  /\ (forall messages,
        deliver inflate messages (state_of o)
        = set_trace (trace (state_of o) ++ replicate (length messages) LogBounced)
            (state_of o)).
Proof.
  intros Hidle Hthrow o. subst o.
  rewrite (handleWebSocketMessage_thrown_string inflate data msg s Hidle Hthrow).
  split; [reflexivity|]. split; [reflexivity|]. split.
  - intros later. by apply handleWebSocketMessage_busy.
  - intros messages. by apply deliver_busy.
Qed.

Lemma C3_witness :
  let o := handleWebSocketMessage sample_inflate [xff; xff] initial_viewer in
  raised o = Some (ErrorObject TypeError)
  /\ isProcessing (state_of o) = true
  /\ (forall later,
        handleWebSocketMessage sample_inflate later (state_of o)
        = Done (log LogBounced (state_of o)))
  /\ (forall messages,
        deliver sample_inflate messages (state_of o)
        = set_trace (trace (state_of o) ++ replicate (length messages) LogBounced)
            (state_of o)).
Proof.
  exact (C3_thrown_string_leaves_flag_set sample_inflate [xff; xff]
           "incorrect header check" initial_viewer eq_refl eq_refl).
Defined.

(** * The session invariant and the colour copy *)

Section InvariantFacts.

Lemma invariant_initial : invariant initial_viewer.
Proof. unfold invariant. simpl. repeat split; try lia; discriminate. Qed.

(** The capacity check establishes the invariant for the new capacity. *)
Lemma capacity_check_invariant ca n s :
  invariant s ->
  invariant (state_of (ite (fun s => maxPoints s <? n) (reallocate ca n) skip s)).
Proof.
  unfold invariant. rewrite capacity_check_shape.
  destruct (maxPoints s <? n) eqn:E; [|done].
  apply Z.ltb_lt in E. unfold shape_of. intros (Hm & _ & _ & Hc).
  assert (Hp : forall a rest,
             ((length <$> heap s) ++ a :: rest) !! length (heap s) = Some a).
  { intros a rest. rewrite lookup_app_r by (by rewrite length_fmap).
    by rewrite length_fmap, Nat.sub_diag. }
  destruct ca; (split; [lia|]); (split; [by rewrite Hp|]).
  - split.
    + intros _. eexists; split; [done|].
      rewrite lookup_app_r by (rewrite length_fmap; lia). rewrite length_fmap.
      by replace (S (length (heap s)) - length (heap s))%nat with 1%nat by lia.
    + intros c' [= <-]. rewrite length_app, length_fmap. simpl.
      split; [lia | intros [= ?]; lia].
  - split; [discriminate|].
    intros c' Hc'. destruct (Hc c' Hc') as [Hlt _].
    rewrite length_fmap in Hlt. rewrite length_app, length_fmap. simpl.
    split; [lia | intros [= ?]; lia].
Qed.

(** The capacity check never raises; it either reallocates or leaves the
    session as it is. *)
Lemma capacity_check_cases ca n s :
  exists s1,
    ite (fun s => maxPoints s <? n) (reallocate ca n) skip s = Done s1
    /\ maxPoints s1 = Z.max (maxPoints s) n
    /\ ((maxPoints s < n /\ is_Some (positions s1)
         /\ (defined (attr_color s1) = defined ca))
        \/ (n <= maxPoints s /\ s1 = s)).
Proof.
  unfold ite. destruct (maxPoints s <? n) eqn:E.
  - apply Z.ltb_lt in E.
    unfold reallocate, seq, assign, new_Float32Array. destruct ca; cbn.
    + eexists; split; [reflexivity|]. cbn. split; [lia|]. left. eauto.
    + eexists; split; [reflexivity|]. cbn. split; [lia|]. left. eauto.
  - apply Z.ltb_ge in E. exists s. split; [done|]. split; [lia|]. by right.
Qed.

Lemma invariant_ingest f s : invariant s -> invariant (state_of (ingest f s)).
Proof.
  intros H. apply (capacity_check_invariant (colorsArray f) (numPoints f)) in H.
  unfold invariant in *. unfold ingest. by rewrite updatePointCloud_shape.
Qed.

Lemma invariant_ingest_all history s : invariant s -> invariant (ingest_all history s).
Proof.
  revert s. induction history as [|f history IH]; intros s H; [done|].
  cbn. apply IH. by apply invariant_ingest.
Qed.

End InvariantFacts.

Section ColourCopyFacts.

Lemma set_heap_twice h1 h2 s : set_heap h2 (set_heap h1 s) = set_heap h2 s.
Proof. reflexivity. Qed.

Lemma set_heap_same s : set_heap (heap s) s = s.
Proof. by destruct s. Qed.

(** With a colour variable the loop never raises: it is the stores of
    [write_colors] on the array the variable refers to. *)
Lemma store_colors_done cs count i c s :
  colors s = Some c ->
  store_colors cs count i s = Done (set_heap (alter (write_colors cs count i) c (heap s)) s).
Proof.
  revert i s. induction count as [|k IH]; intros i s Hc; simpl.
  - unfold skip. f_equal. rewrite list_alter_id by done. symmetry. apply set_heap_same.
  - unfold seq, store_color. rewrite Hc.
    rewrite IH by done. cbn [heap set_heap].
    rewrite set_heap_twice, list_alter_alter_eq. reflexivity.
Qed.

(** Without one it raises at the first store. *)
Lemma store_colors_undefined cs count i s :
  colors s = None -> (0 < count)%nat ->
  store_colors cs count i s = Raised (ErrorObject TypeError) s.
Proof.
  intros Hc Hpos. destruct count as [|k]; [lia|].
  simpl. unfold seq, store_color. by rewrite Hc.
Qed.

Lemma write_colors_lookup_before cs count i a j :
  (j < i)%nat -> write_colors cs count i a !! j = a !! j.
Proof.
  revert i a. induction count as [|k IH]; intros i a Hj; simpl; [done|].
  rewrite IH by lia. apply list_lookup_insert_ne. lia.
Qed.

Lemma write_colors_lookup cs count i a j :
  (i <= j < i + count)%nat -> (j < length a)%nat ->
  write_colors cs count i a !! j = Some (stored_color cs j).
Proof.
  revert i a. induction count as [|k IH]; intros i a Hj Hlen; simpl; [lia|].
  destruct (decide (j = i)) as [->|Hne].
  - rewrite write_colors_lookup_before by lia.
    by rewrite list_lookup_insert_eq.
  - apply IH; [lia | by rewrite length_insert].
Qed.

End ColourCopyFacts.
Section CopyInFacts.

Lemma updatePointCloud_of_try pa ca n s s1 :
  updatePointCloud_try pa ca n s = Done s1 ->
  updatePointCloud pa ca n s = Done (set_isProcessing false s1).
Proof.
  intros H. unfold updatePointCloud, try_finally, try_catch. by rewrite H.
Qed.

Lemma shape_of_Done (c : stmt) s s' :
  preserves shape_of c -> c s = Done s' -> shape_of s' = shape_of s.
Proof. intros Hc H. specialize (Hc s). by rewrite H in Hc. Qed.

(** When the [try] block of [updatePointCloud] completes on a frame with
    colours, the colour variable refers to an array that holds, at every
    index below [3*numPoints], the normalised byte of that index. *)
Lemma copy_in_colours pa cs n s s' :
  invariant s -> 0 <= n ->
  updatePointCloud_try pa (Some cs) n s = Done s' ->
  exists a, deref s' (colors s') = Some a
            /\ (Z.to_nat (n * 3) <= length a)%nat
            /\ forall i, (i < Z.to_nat (n * 3))%nat -> a !! i = Some (stored_color cs i).
Proof.
  intros Hinv Hn H. unfold updatePointCloud_try in H.
  apply seq_Done in H as (s1 & H1 & H).
  apply seq_Done in H as (s2 & H2 & H).
  apply seq_Done in H as (s3 & H3 & H).
  apply seq_Done in H as (s5 & H45 & H).
  apply seq_Done in H45 as (s4 & H4 & H5).
  apply seq_Done in H as (s6 & H6 & H7).
  (* the capacity check *)
  pose proof (capacity_check_invariant (Some cs) n s Hinv) as Hinv1.
  destruct (capacity_check_cases (Some cs) n s) as (s1' & H1' & Hmax & _).
  rewrite H1 in H1'. injection H1' as <-. rewrite H1 in Hinv1. simpl in Hinv1.
  (* the allocation state is that of [s1] up to the colour loop *)
  pose proof (shape_of_Done _ _ _ (positions_set_shape _) H2) as E2.
  pose proof (shape_of_Done _ _ _ position_needsUpdate_shape H3) as E3.
  pose proof (shape_of_Done _ _ _ (store_colors_shape _ _ _) H4) as E4.
  assert (E : shape_of s4 = shape_of s1) by congruence.
  assert (E31 : shape_of s3 = shape_of s1) by congruence.
  (* the colour attribute is there, hence so is the colour array *)
  unfold color_needsUpdate in H5.
  destruct (attr_color s4) as [attr|] eqn:Hattr; [|discriminate].
  injection H5 as <-.
  unfold invariant in Hinv1. rewrite <- E in Hinv1. unfold shape_of in Hinv1.
  destruct Hinv1 as (_ & _ & Hcol & _). rewrite Hattr in Hcol.
  destruct (Hcol eq_refl) as (c & Hc4 & Hlen4).
  assert (Hc3 : colors s3 = Some c).
  { unfold shape_of in E4. congruence. }
  rewrite (store_colors_done cs _ 0%nat c s3 Hc3) in H4. injection H4 as <-.
  rewrite list_lookup_fmap in Hlen4. cbn [heap set_heap] in Hlen4.
  rewrite list_lookup_alter_eq in Hlen4.
  destruct (heap s3 !! c) as [a3|] eqn:Ha3; simpl in Hlen4; [|discriminate].
  injection Hlen4 as Hlen4. rewrite write_colors_length in Hlen4.
  (* what follows the colour loop keeps the store and the variable *)
  unfold assign in H6. injection H6 as <-.
  assert (Hs' : heap s' = alter (write_colors cs (Z.to_nat (n * 3)) 0) c (heap s3)
                /\ colors s' = Some c).
  { unfold ite in H7. destruct (isFirstUpdate _); cbn in H7;
      injection H7 as <-; cbn; done. }
  destruct Hs' as [Hheap Hcol'].
  exists (write_colors cs (Z.to_nat (n * 3)) 0 a3).
  unfold deref. rewrite Hcol'. cbn. rewrite Hheap, list_lookup_alter_eq, Ha3.
  split; [done|]. rewrite write_colors_length.
  assert (Hm3 : maxPoints s3 = maxPoints s1) by (unfold shape_of in E31; congruence).
  split; [lia|]. intros i Hi. apply write_colors_lookup; lia.
Qed.

(** The colour bytes the codec hands over are the bytes of the buffer. *)
Lemma read_colors_bytes dv count off cs :
  read_colors dv count off = Normal cs -> cs = u8 <$> take count (drop off dv).
Proof.
  revert off cs. induction count as [|k IH]; intros off cs; simpl.
  - by intros [= <-].
  - unfold getUint8. destruct (dv !! off) as [b|] eqn:Hb; [|discriminate].
    bind_simpl. destruct (read_colors dv k (off + 1)) as [cs'|] eqn:Hk; [|discriminate].
    bind_simpl. intros [= <-]. apply IH in Hk as ->.
    rewrite (drop_S _ _ _ Hb). simpl. by rewrite Nat.add_1_r.
Qed.

Lemma parse_frame_colours raw f cs :
  parse_frame raw = Normal f -> colorsArray f = Some cs ->
  0 <= numPoints f
  /\ cs = u8 <$> take (Z.to_nat (numPoints f * 3))
                   (drop (5 + 4 * Z.to_nat (numPoints f * 3)) raw)
  /\ Z.of_nat (length cs) = numPoints f * 3.
Proof.
  intros Hparse Hcs.
  destruct (decide (required_length raw <= Z.of_nat (length raw))) as [Hlong|Hshort].
  2:{ rewrite parse_frame_truncated in Hparse by lia. discriminate. }
  destruct (parse_frame_long_enough raw Hlong) as (f' & Hf' & (Hn & _ & Hwf) & _).
  rewrite Hparse in Hf'. injection Hf' as <-. rewrite Hcs in Hwf.
  split; [done|]. split; [|lia].
  unfold parse_frame in Hparse.
  destruct (getUint32 raw 0) as [n|]; [|discriminate]. bind_simpl.
  destruct (getUint8 raw 4) as [c|]; [|discriminate]. bind_simpl.
  destruct (read_positions raw (Z.to_nat (n * 3)) 5) as [ps|]; [|discriminate].
  bind_simpl. destruct (c =? 0).
  - injection Hparse as <-. discriminate.
  - destruct (read_colors raw _ _) as [cs'|] eqn:Hread; [|discriminate].
    bind_simpl. injection Hparse as <-. simpl in *. injection Hcs as <-.
    by apply read_colors_bytes in Hread.
Qed.

End CopyInFacts.
(** C8, as stated, fails on the worker's codec: it divides each colour byte
    by 255 while decoding, so what it hands over for the wire bytes
    [255, 0, 128] is the [Float32Array] of [1.0], [0.0] and [128/255]. *)
Lemma C8_worker_normalises_while_decoding :
  u8 <$> drop 17 coloured_frame_1_bytes = [255; 0; 128]
  /\ Worker.parse coloured_frame_1_bytes
     = Normal {| Worker.positions := [0x40800000; 0x40A00000; 0x40C00000];
                 Worker.colors := Some [0x3F800000; 0; 0x3F008081];
                 Worker.numPoints := 1 |}
  /\ F32.div255 <$> [255; 0; 128] = [0x3F800000; 0; 0x3F008081].
Proof. split_all; eval_eq. Qed.

(** C8, amended.  In the pipeline of PCV.vue the codec hands the colour
    bytes over as they are on the wire, each in [0, 255], and the buffer
    manager normalises them while copying in: after any history, when the
    [try] block of [updatePointCloud] completes on a decoded frame with
    colours, the colour array holds, for every colour byte [c] of the frame
    and at its index, [c / 255.0] as a [Float32Array] stores it. *)
Theorem C8_colours_normalised_at_copy_in
    (history : list DecodedFrame) (raw : list byte) (f : DecodedFrame) (cs : list Z) :
  let s := ingest_all history initial_viewer in
  parse_frame raw = Normal f ->
  colorsArray f = Some cs ->
  raised (updatePointCloud_try (positionsArray f) (colorsArray f) (numPoints f) s) = None ->
  cs = u8 <$> take (Z.to_nat (numPoints f * 3))
                (drop (5 + 4 * Z.to_nat (numPoints f * 3)) raw)
  /\ Forall (fun c => 0 <= c <= 255) cs
  /\ exists a, deref (state_of (ingest f s)) (colors (state_of (ingest f s))) = Some a
               /\ forall i c, cs !! i = Some c -> a !! i = Some (F32.div255 c).
Proof.
  intros s Hparse Hcs Hdone.
  destruct (parse_frame_colours raw f cs Hparse Hcs) as (Hn & Hbytes & Hlen).
  split; [done|]. split.
  { rewrite Hbytes. apply Forall_fmap, Forall_forall. intros b _. apply u8_range. }
  destruct (updatePointCloud_try _ _ _ s) as [s'|e s'] eqn:Htry; [|discriminate].
  unfold ingest. rewrite (updatePointCloud_of_try _ _ _ _ _ Htry).
  rewrite Hcs in Htry.
  destruct (copy_in_colours (positionsArray f) cs (numPoints f) s s')
    as (a & Ha & _ & Hstored); auto.
  { apply invariant_ingest_all, invariant_initial. }
  exists a. split; [exact Ha|].
  intros i c Hi. rewrite Hstored.
  - unfold stored_color. by rewrite Hi.
  - apply lookup_lt_Some in Hi. lia.
Qed.

Lemma C8_witness :
  [255; 0; 128]
  = u8 <$> take (Z.to_nat (numPoints coloured_frame_1 * 3))
             (drop (5 + 4 * Z.to_nat (numPoints coloured_frame_1 * 3))
                coloured_frame_1_bytes)
  /\ Forall (fun c => 0 <= c <= 255) [255; 0; 128]
  /\ exists a,
       deref (state_of (ingest coloured_frame_1 (ingest_all [] initial_viewer)))
         (colors (state_of (ingest coloured_frame_1 (ingest_all [] initial_viewer))))
       = Some a
       /\ forall i c, [255; 0; 128] !! i = Some c -> a !! i = Some (F32.div255 c).
Proof.
  apply (C8_colours_normalised_at_copy_in [] coloured_frame_1_bytes
           coloured_frame_1 [255; 0; 128]); eval_eq.
Defined.

(** * When ingest raises, and what it leaves behind when it does not *)

Section IngestFacts.

Lemma seq_step a b s s1 : a s = Done s1 -> (a ;; b)%stmt s = b s1.
Proof. intros H. unfold seq. by rewrite H. Qed.

Lemma seq_raise a b s e s1 : a s = Raised e s1 -> (a ;; b)%stmt s = Raised e s1.
Proof. intros H. unfold seq. by rewrite H. Qed.

Lemma positions_set_done src s :
  invariant s -> is_Some (positions s) ->
  (length src <= Z.to_nat (maxPoints s * 3))%nat ->
  exists p target,
    positions s = Some p /\ heap s !! p = Some target
    /\ positions_set src s
       = Done (set_heap (<[p := src ++ drop (length src) target]> (heap s)) s).
Proof.
  intros Hinv [p Hp] Hlen. unfold invariant, shape_of in Hinv. rewrite Hp in Hinv.
  destruct Hinv as (_ & (Hlk & _) & _).
  rewrite list_lookup_fmap in Hlk.
  destruct (heap s !! p) as [target|] eqn:Ht; [|discriminate].
  simpl in Hlk. injection Hlk as Hlk.
  exists p, target. split; [done|]. split; [done|].
  unfold positions_set. rewrite Hp, Ht.
  destruct (length src <=? length target)%nat eqn:Hle; [done|].
  apply Nat.leb_gt in Hle. lia.
Qed.

Lemma copy_in_completes src ca n s :
  invariant s -> is_Some (positions s) ->
  (length src <= Z.to_nat (maxPoints s * 3))%nat ->
  (is_Some ca -> is_Some (attr_color s)) ->
  exists s', copy_in src ca n s = Done s' /\ drawRange_count s' = Some n.
Proof.
  intros Hinv Hpos Hlen Hcol.
  destruct (positions_set_done src s Hinv Hpos Hlen) as (p & target & Hp & Ht & Hset).
  unfold copy_in. rewrite (seq_step _ _ _ _ Hset).
  unfold invariant, shape_of in Hinv. rewrite Hp in Hinv.
  destruct Hinv as (_ & (_ & Hpa) & Hca & _).
  destruct (attr_position s) as [pa|] eqn:Hattr; [|discriminate].
  unfold position_needsUpdate at 1, seq at 1. cbn [attr_position set_heap].
  rewrite Hattr.
  assert (Hfinal : forall s0,
             exists s', (assign (set_drawRange_count (Some n)) ;;
                         ite isFirstUpdate
                           (assign (set_isFirstUpdate false) ;; assign (log FitCamera))
                           skip)%stmt s0 = Done s'
                        /\ drawRange_count s' = Some n).
  { intros s0. unfold seq, assign, ite, skip. cbn.
    destruct (isFirstUpdate s0); eauto. }
  destruct ca as [cs|].
  - destruct (Hcol ltac:(eauto)) as [ca Hattrc]. rewrite Hattrc in Hca.
    destruct (Hca eq_refl) as (c & Hc & _).
    unfold seq at 1. unfold seq at 1.
    rewrite (store_colors_done cs _ _ c) by done.
    unfold color_needsUpdate. cbn [attr_color set_heap set_attr_position].
    rewrite Hattrc. apply Hfinal.
  - unfold seq at 1, skip. apply Hfinal.
Qed.

Lemma copy_in_raises src ca n s :
  invariant s ->
  (length src <= Z.to_nat (maxPoints s * 3))%nat ->
  positions s = None \/ (is_Some ca /\ attr_color s = None) ->
  exists s', copy_in src ca n s = Raised (ErrorObject TypeError) s'
             /\ drawRange_count s' = drawRange_count s.
Proof.
  intros Hinv Hlen Hbad. unfold copy_in.
  destruct (positions s) as [p|] eqn:Hp.
  2:{ exists s. split; [|done]. apply seq_raise. unfold positions_set. by rewrite Hp. }
  destruct Hbad as [?|[[cs ->] Hnone]]; [done|].
  destruct (positions_set_done src s Hinv ltac:(eauto) Hlen)
    as (p' & target & Hp' & Ht & Hset).
  rewrite (seq_step _ _ _ _ Hset).
  unfold invariant, shape_of in Hinv. rewrite Hp in Hinv.
  destruct Hinv as (_ & (_ & Hpa) & _).
  destruct (attr_position s) as [pa|] eqn:Hattr; [|discriminate].
  unfold position_needsUpdate at 1, seq at 1. cbn [attr_position set_heap].
  rewrite Hattr.
  set (s3 := set_attr_position _ _).
  assert (Hattr3 : attr_color s3 = None) by done.
  assert (Hdr3 : drawRange_count s3 = drawRange_count s) by done.
  clearbody s3.
  destruct (colors s3) as [c|] eqn:Hc.
  - eexists. split.
    + apply seq_raise. unfold seq. rewrite (store_colors_done cs _ _ c) by done.
      unfold color_needsUpdate. cbn [attr_color set_heap]. by rewrite Hattr3.
    + done.
  - destruct (Z.to_nat (n * 3)) as [|k] eqn:Hk.
    + exists s3. split; [|done]. apply seq_raise. simpl. unfold seq, skip.
      unfold color_needsUpdate. by rewrite Hattr3.
    + exists s3. split; [|done]. apply seq_raise, seq_raise.
      apply store_colors_undefined; [done | lia].
Qed.

Lemma updatePointCloud_try_unfold pa ca n :
  updatePointCloud_try pa ca n
  = (ite (fun s => maxPoints s <? n) (reallocate ca n) skip ;;
     copy_in (take (Z.to_nat (n * 3)) pa) ca n)%stmt.
Proof. reflexivity. Qed.

End IngestFacts.

(** For a well-formed frame after any history, the [try] block of
    [updatePointCloud] either completes or raises a [TypeError], and it raises
    exactly when the frame fits the capacity and either no position array has
    been allocated yet or the frame carries colours while the geometry has no
    colour attribute.  When it completes, the draw range is the frame's point
    count. *)
Theorem ingest_raises_iff (history : list DecodedFrame) (f : DecodedFrame) :
  well_formed f ->
  let s := ingest_all history initial_viewer in
  let o := updatePointCloud_try (positionsArray f) (colorsArray f) (numPoints f) s in
  (raised o = None \/ raised o = Some (ErrorObject TypeError))
  /\ (raised o = Some (ErrorObject TypeError)
      <-> numPoints f <= maxPoints s
          /\ (positions s = None
              \/ (is_Some (colorsArray f) /\ attr_color s = None)))
  /\ (raised o = None ->
      drawRange_count (state_of (ingest f s)) = Some (numPoints f)).
Proof.
  intros (Hn & Hlen & _) s o.
  assert (Hinv : invariant s) by apply invariant_ingest_all, invariant_initial.
  pose proof (capacity_check_invariant (colorsArray f) (numPoints f) s Hinv) as Hinv1.
  destruct (capacity_check_cases (colorsArray f) (numPoints f) s)
    as (s1 & Hcheck & Hmax & Hcases).
  rewrite Hcheck in Hinv1. simpl in Hinv1.
  assert (Hsrc : (length (take (Z.to_nat (numPoints f * 3)) (positionsArray f))
                  <= Z.to_nat (maxPoints s1 * 3))%nat).
  { rewrite length_take. lia. }
  assert (Ho : o = copy_in (take (Z.to_nat (numPoints f * 3)) (positionsArray f))
                     (colorsArray f) (numPoints f) s1).
  { subst o. rewrite updatePointCloud_try_unfold. by apply seq_step. }
  assert (Hcompletes :
            is_Some (positions s1) ->
            (is_Some (colorsArray f) -> is_Some (attr_color s1)) ->
            raised o = None
            /\ drawRange_count (state_of (ingest f s)) = Some (numPoints f)).
  { intros Hp Hc.
    destruct (copy_in_completes _ (colorsArray f) (numPoints f) s1 Hinv1 Hp Hsrc Hc)
      as (s' & Hs' & Hdr).
    rewrite Ho, Hs'. split; [done|].
    unfold ingest. rewrite (updatePointCloud_of_try _ _ _ _ s'); [done|].
    fold o. by rewrite Ho. }
  destruct Hcases as [(Hlt & Hpos & Hattr)|(Hle & ->)].
  - destruct Hcompletes as [Hnone Hdr]; [done | |].
    { intros [cs Hcs]. rewrite Hcs in Hattr.
      destruct (attr_color s1); [eauto | discriminate]. }
    split; [by left|]. split; [|done].
    rewrite Hnone. split; [discriminate | lia].
  - destruct (positions s) as [p|] eqn:Hp.
    + destruct (colorsArray f) as [cs|] eqn:Hcs.
      * destruct (attr_color s) as [a|] eqn:Ha.
        -- destruct Hcompletes as [Hnone Hdr]; [eauto | eauto |].
           split; [by left|]. split; [|done]. rewrite Hnone.
           split; [discriminate|]. intros [_ [?|[_ ?]]]; discriminate.
        -- destruct (copy_in_raises (take (Z.to_nat (numPoints f * 3)) (positionsArray f))
                       (Some cs) (numPoints f) s Hinv Hsrc) as (s' & Hs' & _).
           { right. eauto. }
           rewrite Ho, Hs'. simpl. split; [by right|]. split; [|discriminate].
           split; [eauto|done].
      * destruct Hcompletes as [Hnone Hdr]; [eauto | intros [? ?]; discriminate |].
        split; [by left|]. split; [|done]. rewrite Hnone.
        split; [discriminate|]. intros [_ [?|[[? ?] _]]]; discriminate.
    + destruct (copy_in_raises (take (Z.to_nat (numPoints f * 3)) (positionsArray f))
                  (colorsArray f) (numPoints f) s Hinv Hsrc) as (s' & Hs' & _).
      { by left. }
      rewrite Ho, Hs'. simpl. split; [by right|]. split; [|discriminate].
      split; [eauto|done].
Qed.

Lemma ingest_raises_iff_witness :
  let s := ingest_all [plain_frame_2] initial_viewer in
  let o := updatePointCloud_try (positionsArray coloured_frame_1)
             (colorsArray coloured_frame_1) (numPoints coloured_frame_1) s in
  (raised o = None \/ raised o = Some (ErrorObject TypeError))
  /\ (raised o = Some (ErrorObject TypeError)
      <-> numPoints coloured_frame_1 <= maxPoints s
          /\ (positions s = None
              \/ (is_Some (colorsArray coloured_frame_1) /\ attr_color s = None)))
  /\ (raised o = None ->
      drawRange_count (state_of (ingest coloured_frame_1 s))
      = Some (numPoints coloured_frame_1)).
Proof.
  apply (ingest_raises_iff [plain_frame_2] coloured_frame_1). frame_ok.
Defined.

Section ReadBackFacts.

Lemma store_color_position_view p cs i : preserves (position_view p) (store_color cs i).
Proof.
  intros s. unfold store_color, position_view.
  destruct (colors s) as [c|] eqn:Hc; simpl; [|by rewrite Hc].
  rewrite Hc. destruct (decide (Some c = Some p)) as [|Hne]; [done|].
  rewrite list_lookup_alter_ne; [done | congruence].
Qed.

Lemma store_colors_position_view p cs count i :
  preserves (position_view p) (store_colors cs count i).
Proof.
  revert i. induction count as [|k IH]; intros i; simpl.
  - apply preserves_skip.
  - apply preserves_seq; [apply store_color_position_view | apply IH].
Qed.

Lemma position_needsUpdate_position_view p :
  preserves (position_view p) position_needsUpdate.
Proof.
  intros s. unfold position_needsUpdate. by destruct (attr_position s).
Qed.

Lemma color_needsUpdate_position_view p :
  preserves (position_view p) color_needsUpdate.
Proof.
  intros s. unfold color_needsUpdate. by destruct (attr_color s).
Qed.

(** After [positions.set], nothing [updatePointCloud] does changes the
    position array. *)
Lemma updatePointCloud_position_view p pa ca n s s1 s2 :
  ite (fun s => maxPoints s <? n) (reallocate ca n) skip s = Done s1 ->
  positions_set (take (Z.to_nat (n * 3)) pa) s1 = Done s2 ->
  position_view p (state_of (updatePointCloud pa ca n s)) = position_view p s2.
Proof.
  intros H1 H2. unfold updatePointCloud.
  rewrite obs_try_finally by (by apply preserves_assign).
  rewrite obs_try_catch
    by (intros e; apply preserves_seq; by apply preserves_assign).
  rewrite updatePointCloud_try_unfold, (seq_step _ _ _ _ H1).
  unfold copy_in. rewrite obs_seq; [by rewrite H2|].
  repeat apply preserves_seq; auto using position_needsUpdate_position_view.
  - destruct ca; [|apply preserves_skip].
    apply preserves_seq;
      [apply store_colors_position_view | apply color_needsUpdate_position_view].
  - by apply preserves_assign.
  - apply preserves_ite; [|apply preserves_skip].
    apply preserves_seq; by apply preserves_assign.
Qed.

End ReadBackFacts.

(** Reading back the active position range.  For a well-formed frame that
    has a point, or that arrives once a position array exists, the first
    [3*numPoints] elements of the position array after ingest are the frame's
    positions, bit for bit, whether or not the colour copy raised. *)
Theorem positions_read_back (history : list DecodedFrame) (f : DecodedFrame) :
  well_formed f ->
  let s := ingest_all history initial_viewer in
  let s' := state_of (ingest f s) in
  0 < numPoints f \/ is_Some (positions s) ->
  exists a, deref s' (positions s') = Some a
            /\ take (Z.to_nat (numPoints f * 3)) a = positionsArray f.
Proof.
  intros (Hn & Hlen & _) s s' Hsome.
  assert (Hinv : invariant s) by apply invariant_ingest_all, invariant_initial.
  pose proof (capacity_check_invariant (colorsArray f) (numPoints f) s Hinv) as Hinv1.
  destruct (capacity_check_cases (colorsArray f) (numPoints f) s)
    as (s1 & Hcheck & Hmax & Hcases).
  rewrite Hcheck in Hinv1. simpl in Hinv1.
  assert (Hpos1 : is_Some (positions s1)).
  { destruct Hcases as [(_ & Hp & _)|(Hle & ->)]; [done|].
    destruct Hsome as [Hpos|Hp]; [|done].
    unfold invariant, shape_of in Hinv.
    destruct (positions s); [eauto|]. destruct Hinv as (_ & (Hz & _) & _). lia. }
  set (src := take (Z.to_nat (numPoints f * 3)) (positionsArray f)).
  assert (Hsrc : (length src <= Z.to_nat (maxPoints s1 * 3))%nat).
  { subst src. rewrite length_take. lia. }
  destruct (positions_set_done src s1 Hinv1 Hpos1 Hsrc) as (p & target & Hp & Ht & Hset).
  pose proof (updatePointCloud_position_view p (positionsArray f) (colorsArray f)
                (numPoints f) s s1 _ Hcheck Hset) as Hview.
  fold (ingest f s) in Hview. fold s' in Hview.
  unfold position_view in Hview. cbn [positions colors heap set_heap] in Hview.
  assert (Hne : colors s1 <> Some p).
  { unfold invariant, shape_of in Hinv1. destruct Hinv1 as (_ & _ & _ & Hc).
    intros Hcp. destruct (Hc p Hcp) as [_ Hdiff]. by rewrite Hp in Hdiff. }
  injection Hview as Hp' Hc' Hh'. rewrite Hc' in Hh'.
  destruct (decide (colors s1 = Some p)) as [|_]; [done|].
  exists (src ++ drop (length src) target).
  unfold deref. rewrite Hp'. cbn. rewrite Hp. cbn. rewrite Hh'.
  split.
  - apply list_lookup_insert_eq. by apply lookup_lt_Some in Ht.
  - rewrite take_app_length'.
    + subst src. apply take_ge. lia.
    + subst src. rewrite length_take. lia.
Qed.

Lemma positions_read_back_witness :
  let s := ingest_all [plain_frame_2] initial_viewer in
  let s' := state_of (ingest coloured_frame_1 s) in
  exists a, deref s' (positions s') = Some a
            /\ take (Z.to_nat (numPoints coloured_frame_1 * 3)) a
               = positionsArray coloured_frame_1.
Proof.
  apply (positions_read_back [plain_frame_2] coloured_frame_1); [frame_ok|].
  left. reflexivity.
Defined.

(** * The admission flag *)

Section FlagFacts.

Variable inflate : list byte -> completion (list byte).

Lemma updatePointCloud_clears_flag pa ca n s :
  exists s', updatePointCloud pa ca n s = Done s' /\ isProcessing s' = false.
Proof.
  unfold updatePointCloud, try_finally, try_catch, seq, assign.
  destruct (updatePointCloud_try pa ca n s); eauto.
Qed.

End FlagFacts.

(** Whatever the payload, unless the decompressor throws a string, an
    accepted message leaves the handler normally with the flag cleared:
    after a successful ingest, after an ingest that raised, after a buffer the
    codec rejects and after a decompressor failure that throws an error
    object.  And a message that arrives while the flag is set is dropped: the
    session only gains the log line, and the decompressor is not called. *)
Theorem flag_cleared_unless_string_thrown
    (inflate : list byte -> completion (list byte)) (data : list byte) (s : viewer) :
  (forall msg, inflate data <> Throw (PrimitiveString msg)) ->
  (isProcessing s = false ->
   exists s', handleWebSocketMessage inflate data s = Done s'
              /\ isProcessing s' = false)
  /\ (isProcessing s = true ->
      handleWebSocketMessage inflate data s = Done (log LogBounced s)
      /\ trace (log LogBounced s) = trace s ++ [LogBounced]).
Proof.
  intros Hnostring. split.
  - intros Hidle.
    unfold handleWebSocketMessage, ite. rewrite Hidle.
    unfold seq at 1, assign at 1.
    unfold parsePointCloudData, try_catch, seq at 1, assign at 1.
    set (s0 := log (PakoInflate data) (set_isProcessing true s)).
    assert (Hcatch : forall name,
               exists s', (assign (log (ErrorParsing (ErrorObject name))) ;; skip ;;
                           assign (set_isProcessing false))%stmt s0 = Done s'
                          /\ isProcessing s' = false).
    { intros name. eexists. split; [reflexivity | done]. }
    destruct (inflate data) as [raw|[name|msg]] eqn:Hinfl.
    + destruct (parse_frame raw) as [f|[name|msg]] eqn:Hparse.
      * destruct (updatePointCloud_clears_flag (positionsArray f) (colorsArray f)
                    (numPoints f) s0) as (s' & -> & Hflag).
        eauto.
      * apply Hcatch.
      * exfalso. destruct (decide (required_length raw <= Z.of_nat (length raw))).
        -- destruct (parse_frame_long_enough raw) as (f & Hf & _); [done|]. congruence.
        -- rewrite parse_frame_truncated in Hparse by lia. discriminate.
    + apply Hcatch.
    + exfalso. by apply (Hnostring msg).
  - intros Hbusy. split; [by apply handleWebSocketMessage_busy | done].
Qed.

Lemma flag_cleared_unless_string_thrown_witness :
  (isProcessing initial_viewer = false ->
   exists s', handleWebSocketMessage sample_inflate (x78 :: x9c :: coloured_frame_1_bytes)
                initial_viewer = Done s'
              /\ isProcessing s' = false)
  /\ (isProcessing initial_viewer = true ->
      handleWebSocketMessage sample_inflate (x78 :: x9c :: coloured_frame_1_bytes)
        initial_viewer = Done (log LogBounced initial_viewer)
      /\ trace (log LogBounced initial_viewer) = trace initial_viewer ++ [LogBounced]).
Proof.
  apply (flag_cleared_unless_string_thrown sample_inflate
           (x78 :: x9c :: coloured_frame_1_bytes) initial_viewer).
  intros msg. discriminate.
Defined.

Section NumberFacts.

Lemma rne_div_exact p : F32.rne_div p 1 = p.
Proof.
  unfold F32.rne_div. rewrite Z.mod_1_r, Z.div_1_r. reflexivity.
Qed.

End NumberFacts.

(** Below [2^53] a Number holds a non-negative integer exactly, so there the
    key of a frame name is the number its digits spell. *)
Theorem to_Number_exact (z : Z) : 0 <= z < 2 ^ 53 -> to_Number z = z.
Proof.
  intros [Hz Hlt]. unfold to_Number.
  destruct (z <=? 0) eqn:E; [apply Z.leb_le in E; lia|].
  apply Z.leb_gt in E.
  unfold F32.round_sig. change (Z.log2 1) with 0. rewrite Z.sub_0_r.
  pose proof (Z.log2_spec z E) as [Hlo Hhi].
  pose proof (Z.log2_nonneg z) as Hnn.
  assert (He : Z.log2 z <= 52).
  { destruct (Z_le_gt_dec (Z.log2 z) 52) as [|Hgt]; [done|].
    assert (2 ^ 53 <= 2 ^ Z.log2 z) by (apply Z.pow_le_mono_r; lia). lia. }
  rewrite (Z.max_l 0 (- Z.log2 z)) by lia. rewrite (Z.max_r 0 (Z.log2 z)) by lia.
  rewrite Z.pow_0_r, Z.mul_1_r, Z.mul_1_l.
  replace (z <? 2 ^ Z.log2 z) with false by (symmetry; apply Z.ltb_ge; lia).
  rewrite (Z.max_r 0 (53 - 1 - Z.log2 z)) by lia.
  rewrite (Z.max_l 0 (- (53 - 1 - Z.log2 z))) by lia.
  rewrite Z.pow_0_r, Z.mul_1_l, rne_div_exact.
  set (k := 53 - 1 - Z.log2 z).
  assert (Hk : 0 <= k) by (subst k; lia).
  assert (Hpow : 2 ^ Z.succ (Z.log2 z) * 2 ^ k = 2 ^ 53).
  { rewrite <- Z.pow_add_r by lia. f_equal. subst k. lia. }
  assert (Hkpos : 0 < 2 ^ k) by (apply Z.pow_pos_nonneg; lia).
  assert (Hm : z * 2 ^ k < 2 ^ 53) by nia.
  replace (z * 2 ^ k =? 2 ^ 53) with false by (symmetry; apply Z.eqb_neq; lia).
  replace (Z.log2 z - (53 - 1)) with (- k) by (subst k; lia).
  rewrite (Z.max_l 0 (- k)) by lia. rewrite Z.opp_involutive, (Z.max_r 0 k) by lia.
  rewrite Z.pow_0_r, Z.mul_1_r, Z.div_mul by lia.
  apply Z.min_l. assert (2 ^ 53 <= 2 ^ 1024) by (apply Z.pow_le_mono_r; lia). lia.
Qed.

Lemma to_Number_exact_witness : to_Number 10 = 10.
Proof. apply (to_Number_exact 10). lia. Defined.

(** * The two codecs side by side, and what a decoder reads *)

Section CodecAgreementFacts.

Lemma worker_read_colors_normalises dv count off :
  Worker.read_colors dv count off
  = match read_colors dv count off with
    | Normal cs => Normal (F32.div255 <$> cs)
    | Throw e => Throw e
    end.
Proof.
  revert off. induction count as [|k IH]; intros off; simpl; [done|].
  destruct (getUint8 dv off) as [c|e]; bind_simpl; [|done].
  rewrite IH. by destruct (read_colors dv k (off + 1)).
Qed.

Lemma getUint8_app dv extra off :
  (off < length dv)%nat -> getUint8 (dv ++ extra) off = getUint8 dv off.
Proof. intros H. unfold getUint8. by rewrite lookup_app_l. Qed.

Lemma take4_drop_app {A} (dv extra : list A) off :
  (off + 4 <= length dv)%nat ->
  take 4 (drop off (dv ++ extra)) = take 4 (drop off dv).
Proof.
  intros H. rewrite drop_app_le by lia. rewrite take_app_le; [done|].
  rewrite length_drop. lia.
Qed.

Lemma getUint32_app dv extra off :
  (off + 4 <= length dv)%nat -> getUint32 (dv ++ extra) off = getUint32 dv off.
Proof. intros H. unfold getUint32. by rewrite take4_drop_app. Qed.

Lemma getFloat32_app dv extra off :
  (off + 4 <= length dv)%nat -> getFloat32 (dv ++ extra) off = getFloat32 dv off.
Proof. intros H. unfold getFloat32. by rewrite take4_drop_app. Qed.

Lemma read_positions_app dv extra count off :
  (count = 0 \/ off + 4 * count <= length dv)%nat ->
  read_positions (dv ++ extra) count off = read_positions dv count off.
Proof.
  revert off. induction count as [|k IH]; intros off H; simpl; [done|].
  rewrite getFloat32_app by lia. rewrite IH by lia. done.
Qed.

Lemma read_colors_app dv extra count off :
  (count = 0 \/ off + count <= length dv)%nat ->
  read_colors (dv ++ extra) count off = read_colors dv count off.
Proof.
  revert off. induction count as [|k IH]; intros off H; simpl; [done|].
  rewrite getUint8_app by lia. rewrite IH by lia. done.
Qed.

End CodecAgreementFacts.

Lemma worker_parse_as_parse_frame (raw : list byte) :
  Worker.parse raw
  = match parse_frame raw with
    | Normal f =>
        Normal {| Worker.positions := positionsArray f;
                  Worker.colors := match colorsArray f with
                                   | Some cs => Some (F32.div255 <$> cs)
                                   | None => None
                                   end;
                  Worker.numPoints := numPoints f |}
    | Throw e => Throw e
    end.
Proof.
  unfold Worker.parse, parse_frame.
  destruct (getUint32 raw 0) as [n|e]; bind_simpl; [|done].
  destruct (getUint8 raw 4) as [c|e]; bind_simpl; [|done].
  destruct (read_positions raw (Z.to_nat (n * 3)) 5) as [ps|e]; bind_simpl; [|done].
  destruct (c =? 0); [done|].
  rewrite worker_read_colors_normalises.
  by destruct (read_colors raw _ _).
Qed.

(** The worker's handler next to the parser of PCV.vue.  The worker posts a
    parsed message exactly for the messages that decompress and decode to a
    frame with colours; the message then holds the same point count and
    positions, and for colours the bytes of the other parser each divided by
    255.  A frame without colours is never posted: the [null] in the transfer
    list makes [postMessage] throw, and the handler reports a [TypeError]
    instead.  What the decompressor or the parsing section throws is reported
    as it is. *)
Theorem worker_onmessage_agrees_with_parse_frame
    (inflate : list byte -> completion (list byte)) (data : list byte) :
  Worker.onmessage inflate data
  = match inflate data with
    | Throw e => Worker.Failure e
    | Normal raw =>
        match parse_frame raw with
        | Throw e => Worker.Failure e
        | Normal f =>
            match colorsArray f with
            | Some cs =>
                Worker.Parsed {| Worker.positions := positionsArray f;
                                 Worker.colors := Some (F32.div255 <$> cs);
                                 Worker.numPoints := numPoints f |}
            | None => Worker.Failure (ErrorObject TypeError)
            end
        end
    end.
Proof.
  unfold Worker.onmessage.
  destruct (inflate data) as [raw|e]; bind_simpl; [|done].
  rewrite worker_parse_as_parse_frame.
  destruct (parse_frame raw) as [f|e]; bind_simpl; [|done].
  unfold Worker.postMessage. cbn. by destruct (colorsArray f).
Qed.

(** A decoder reads no further than the size the header implies: bytes after
    it change nothing, for either parser. *)
Theorem parse_frame_ignores_trailing_bytes (raw extra : list byte) :
  required_length raw <= Z.of_nat (length raw) ->
  parse_frame (raw ++ extra) = parse_frame raw
  /\ Worker.parse (raw ++ extra) = Worker.parse raw
  /\ required_length (raw ++ extra) = required_length raw.
Proof.
  intros Hlong.
  assert (H5 : (5 <= length raw)%nat).
  { destruct (decide (5 <= length raw)%nat) as [|Hs]; [done|]. exfalso.
    unfold required_length, declared_hasColors, declared_pointCount in Hlong.
    rewrite (getUint8_out_of_bounds raw 4) in Hlong by lia.
    destruct (decide (length raw < 4)%nat) as [H4|H4].
    - rewrite (getUint32_out_of_bounds raw 0) in Hlong by lia. lia.
    - destruct (getUint32_in_bounds raw 0) as (n & Hn & Hn0); [lia|].
      rewrite Hn in Hlong. lia. }
  assert (Hparse : parse_frame (raw ++ extra) = parse_frame raw).
  { unfold required_length, declared_hasColors, declared_pointCount in Hlong.
    unfold parse_frame.
    rewrite getUint32_app, getUint8_app by lia.
    destruct (getUint32_in_bounds raw 0) as (n & Hn & Hn0); [lia|].
    destruct (getUint8_in_bounds raw 4) as (c & Hc & Hc0); [lia|].
    rewrite Hn, Hc in *. bind_simpl.
    rewrite read_positions_app by (destruct (c =? 0); bind_simpl; lia).
    destruct (read_positions raw _ 5); bind_simpl; [|done].
    destruct (c =? 0) eqn:Ec; bind_simpl; [done|].
    rewrite read_colors_app by lia. done. }
  split; [done|]. split.
  - by rewrite !worker_parse_as_parse_frame, Hparse.
  - unfold required_length, declared_hasColors, declared_pointCount.
    by rewrite getUint32_app, getUint8_app by lia.
Qed.

Lemma parse_frame_ignores_trailing_bytes_witness :
  parse_frame (coloured_frame_1_bytes ++ [x2a; x2a])
  = parse_frame coloured_frame_1_bytes
  /\ Worker.parse (coloured_frame_1_bytes ++ [x2a; x2a])
     = Worker.parse coloured_frame_1_bytes
  /\ required_length (coloured_frame_1_bytes ++ [x2a; x2a])
     = required_length coloured_frame_1_bytes.
Proof.
  apply (parse_frame_ignores_trailing_bytes coloured_frame_1_bytes [x2a; x2a]).
  vm_compute. discriminate.
Defined.

(** * What each part of [updatePointCloud] leaves alone *)

Section KeptObservations.

Context {X : Type} (obs : viewer -> X).

(** The copy-in statements only write array elements and bump versions. *)
Hypothesis obs_heap : forall h s, obs (set_heap h s) = obs s.
Hypothesis obs_position_version : forall a v s,
  attr_position s = Some a ->
  obs (set_attr_position (Some {| array := array a; version := v |}) s) = obs s.
Hypothesis obs_color_version : forall a v s,
  attr_color s = Some a ->
  obs (set_attr_color (Some {| array := array a; version := v |}) s) = obs s.

Lemma positions_set_keeps src : preserves obs (positions_set src).
Proof.
  intros s. unfold positions_set.
  destruct (positions s); [|done]. destruct (heap s !! _); [|done].
  destruct (_ <=? _)%nat; [apply obs_heap | done].
Qed.

Lemma position_needsUpdate_keeps : preserves obs position_needsUpdate.
Proof.
  intros s. unfold position_needsUpdate.
  destruct (attr_position s) eqn:E; [by apply obs_position_version | done].
Qed.

Lemma color_needsUpdate_keeps : preserves obs color_needsUpdate.
Proof.
  intros s. unfold color_needsUpdate.
  destruct (attr_color s) eqn:E; [by apply obs_color_version | done].
Qed.

Lemma store_colors_keeps cs count i : preserves obs (store_colors cs count i).
Proof.
  revert i. induction count as [|k IH]; intros i; simpl.
  - apply preserves_skip.
  - apply preserves_seq; [|apply IH].
    intros s. unfold store_color. destruct (colors s); [apply obs_heap | done].
Qed.

Lemma colour_copy_keeps ca n :
  preserves obs
    match ca with
    | Some cs => (store_colors cs (Z.to_nat (n * 3)) 0 ;; color_needsUpdate)%stmt
    | None => skip
    end.
Proof.
  destruct ca; [|apply preserves_skip].
  apply preserves_seq; [apply store_colors_keeps | apply color_needsUpdate_keeps].
Qed.

(** The capacity check only allocates and rebinds. *)
Hypothesis obs_maxPoints : forall m s, obs (set_maxPoints m s) = obs s.
Hypothesis obs_positions : forall p s, obs (set_positions p s) = obs s.
Hypothesis obs_colors : forall c s, obs (set_colors c s) = obs s.
Hypothesis obs_attr_position : forall a s, obs (set_attr_position a s) = obs s.
Hypothesis obs_attr_color : forall a s, obs (set_attr_color a s) = obs s.
Hypothesis obs_vertexColors : forall b s, obs (set_vertexColors b s) = obs s.

Lemma capacity_check_keeps ca n :
  preserves obs (ite (fun s => maxPoints s <? n) (reallocate ca n) skip).
Proof.
  apply preserves_ite; [|apply preserves_skip].
  intros s. unfold reallocate, seq, assign, new_Float32Array.
  destruct ca; cbn;
    rewrite ?obs_vertexColors, ?obs_attr_color, ?obs_colors, ?obs_heap,
      ?obs_attr_position, ?obs_positions, ?obs_heap, ?obs_maxPoints; done.
Qed.

(** Setting the draw range and fitting the camera on the first update. *)
Hypothesis obs_drawRange : forall d s, obs (set_drawRange_count d s) = obs s.
Hypothesis obs_first_update : forall s,
  isFirstUpdate s = true -> obs (log FitCamera (set_isFirstUpdate false s)) = obs s.

Lemma first_update_keeps :
  preserves obs
    (ite isFirstUpdate (assign (set_isFirstUpdate false) ;; assign (log FitCamera)) skip).
Proof.
  intros s. unfold ite. destruct (isFirstUpdate s) eqn:E; [|done].
  by apply obs_first_update.
Qed.

Lemma updatePointCloud_try_keeps pa ca n : preserves obs (updatePointCloud_try pa ca n).
Proof.
  unfold updatePointCloud_try.
  repeat apply preserves_seq;
    auto using capacity_check_keeps, positions_set_keeps, position_needsUpdate_keeps,
      colour_copy_keeps, first_update_keeps.
  by apply preserves_assign.
Qed.

(** The handler and the [finally] block. *)
Hypothesis obs_error :
  forall e s, obs (set_error_value (Some "Error updating point cloud"%string)
                     (log (ErrorUpdating e) s)) = obs s.
Hypothesis obs_isProcessing : forall b s, obs (set_isProcessing b s) = obs s.

Lemma updatePointCloud_keeps pa ca n : preserves obs (updatePointCloud pa ca n).
Proof.
  intros s. unfold updatePointCloud.
  rewrite obs_try_finally by (apply preserves_assign, obs_isProcessing).
  rewrite obs_try_catch by (intros e s'; apply obs_error).
  apply updatePointCloud_try_keeps.
Qed.

End KeptObservations.

Section CompletionFacts.

Context {X : Type} (obs : viewer -> X) (g : X -> X).

Lemma on_completion_seq a b :
  preserves obs a -> on_completion obs g b -> on_completion obs g (a ;; b)%stmt.
Proof.
  intros Ha Hb s. unfold seq. specialize (Ha s).
  destruct (a s) as [s1|e s1]; simpl in Ha; [|done].
  specialize (Hb s1). destruct (b s1); congruence.
Qed.

End CompletionFacts.

(** When the [try] block of [updatePointCloud] completes it has set the draw
    range to the point count, cleared [isFirstUpdate] and, if that was set,
    fitted the camera; when it raises it has told the page nothing. *)
Lemma updatePointCloud_try_display pa ca n :
  on_completion display
    (fun '(_, first, tr, err) =>
       (Some n, false, tr ++ (if first then [FitCamera] else []), err))
    (updatePointCloud_try pa ca n).
Proof.
  unfold updatePointCloud_try.
  apply on_completion_seq; [apply capacity_check_keeps; intros; reflexivity|].
  apply on_completion_seq; [apply positions_set_keeps; intros; reflexivity|].
  apply on_completion_seq; [apply position_needsUpdate_keeps; intros; reflexivity|].
  apply on_completion_seq; [apply colour_copy_keeps; intros; reflexivity|].
  intros s. unfold seq, assign, ite, skip, display. cbn.
  destruct (isFirstUpdate s) eqn:E; cbn; rewrite ?E, ?app_nil_r; done.
Qed.

Lemma updatePointCloud_tells
    (pa : list F32.t) (ca : option (list Z)) (n : Z) (s : viewer) :
  let s' := state_of (updatePointCloud pa ca n s) in
  isProcessing s' = false
  /\ match raised (updatePointCloud_try pa ca n s) with
     | None =>
         drawRange_count s' = Some n
         /\ isFirstUpdate s' = false
         /\ trace s' = trace s ++ (if isFirstUpdate s then [FitCamera] else [])
         /\ error_value s' = error_value s
     | Some e =>
         drawRange_count s' = drawRange_count s
         /\ isFirstUpdate s' = isFirstUpdate s
         /\ trace s' = trace s ++ [ErrorUpdating e]
         /\ error_value s' = Some "Error updating point cloud"%string
     end.
Proof.
  intros s'. subst s'. pose proof (updatePointCloud_try_display pa ca n s) as H.
  unfold updatePointCloud, try_finally, try_catch, seq, assign.
  destruct (updatePointCloud_try pa ca n s) as [s1|e s1]; cbn.
  - unfold display in H. injection H as Hd Hf Ht He.
    split; [done|]. repeat split; congruence.
  - unfold display in H. injection H as Hd Hf Ht He.
    split; [done|]. repeat split; congruence.
Qed.

(** What an ingest tells the page and the renderer, in any state of the
    session, for any arrays and any point count that is not negative.  If the
    [try] block completes: the draw range is the point count, the camera has
    been fitted if this was the first completed update, and the error message
    is as before.  If it raises: the draw range and [isFirstUpdate] are as
    before, the error is logged and the page shows 'Error updating point
    cloud'.  Either way the processing flag is cleared. *)
Theorem updatePointCloud_display
    (pa : list F32.t) (ca : option (list Z)) (n : Z) (s : viewer) :
  0 <= n ->
  let s' := state_of (updatePointCloud pa ca n s) in
  isProcessing s' = false
  /\ match raised (updatePointCloud_try pa ca n s) with
     | None =>
         drawRange_count s' = Some n
         /\ isFirstUpdate s' = false
         /\ trace s' = trace s ++ (if isFirstUpdate s then [FitCamera] else [])
         /\ error_value s' = error_value s
     | Some e =>
         drawRange_count s' = drawRange_count s
         /\ isFirstUpdate s' = isFirstUpdate s
         /\ trace s' = trace s ++ [ErrorUpdating e]
         /\ error_value s' = Some "Error updating point cloud"%string
     end.
Proof. intros _. apply updatePointCloud_tells. Qed.

Lemma updatePointCloud_display_witness :
  let s := ingest_all [plain_frame_2] initial_viewer in
  let pa := positionsArray coloured_frame_1 in
  let ca := colorsArray coloured_frame_1 in
  let s' := state_of (updatePointCloud pa ca 1 s) in
  isProcessing s' = false
  /\ match raised (updatePointCloud_try pa ca 1 s) with
     | None =>
         drawRange_count s' = Some 1
         /\ isFirstUpdate s' = false
         /\ trace s' = trace s ++ (if isFirstUpdate s then [FitCamera] else [])
         /\ error_value s' = error_value s
     | Some e =>
         drawRange_count s' = drawRange_count s
         /\ isFirstUpdate s' = isFirstUpdate s
         /\ trace s' = trace s ++ [ErrorUpdating e]
         /\ error_value s' = Some "Error updating point cloud"%string
     end.
Proof.
  intros s pa ca.
  apply (updatePointCloud_display pa ca 1 s). lia.
Defined.

(** * Sessions: what any stream of messages leaves *)

Section SessionFacts.

Variable inflate : list byte -> completion (list byte).

Lemma decoded_well_formed data f : decoded inflate data = Some f -> well_formed f.
Proof.
  unfold decoded. destruct (inflate data) as [raw|]; [|done].
  destruct (parse_frame raw) as [f'|] eqn:Hparse; [|done]. intros [= <-].
  destruct (decide (required_length raw <= Z.of_nat (length raw))) as [Hlong|Hshort].
  - destruct (parse_frame_long_enough raw Hlong) as (f0 & Hf0 & Hwf & _). congruence.
  - rewrite parse_frame_truncated in Hparse by lia. discriminate.
Qed.

(** The three ways a message is handled: bounced; handed to the decompressor
    and rejected by it or by the codec; decoded and ingested. *)
Lemma handleWebSocketMessage_cases data s :
  let o := handleWebSocketMessage inflate data s in
  (isProcessing s = true /\ o = Done (log LogBounced s))
  \/ (isProcessing s = false /\ decoded inflate data = None
      /\ exists e,
           let s1 := log (ErrorParsing e) (log (PakoInflate data) (set_isProcessing true s)) in
           match e with
           | ErrorObject _ => o = Done (set_isProcessing false s1)
           | PrimitiveString msg =>
               inflate data = Throw (PrimitiveString msg)
               /\ o = Raised (ErrorObject TypeError) s1
           end)
  \/ (isProcessing s = false
      /\ exists f, decoded inflate data = Some f
                   /\ o = ingest f (log (PakoInflate data) (set_isProcessing true s))).
Proof.
  intros o. subst o. destruct (isProcessing s) eqn:Hflag.
  { left. split; [done|]. by apply handleWebSocketMessage_busy. }
  right. unfold handleWebSocketMessage, ite. rewrite Hflag.
  unfold parsePointCloudData, try_catch, seq, assign, throw, skip, decoded.
  destruct (inflate data) as [raw|[name|msg]] eqn:Hinfl.
  - destruct (parse_frame raw) as [f|[name|msg]] eqn:Hparse.
    + right. split; [done|]. exists f. split; [done|].
      unfold ingest.
      destruct (updatePointCloud_clears_flag (positionsArray f) (colorsArray f)
                  (numPoints f) (log (PakoInflate data) (set_isProcessing true s)))
        as (s' & Hs' & _).
      by rewrite Hs'.
    + left. split; [done|]. split; [done|]. by exists (ErrorObject name).
    + exfalso. destruct (decide (required_length raw <= Z.of_nat (length raw))).
      * destruct (parse_frame_long_enough raw) as (f & Hf & _); [done|]. congruence.
      * rewrite parse_frame_truncated in Hparse by lia. discriminate.
  - left. split; [done|]. split; [done|]. by exists (ErrorObject name).
  - left. split; [done|]. split; [done|]. by exists (PrimitiveString msg).
Qed.

(** A property of sessions that logging, the processing flag and the ingest
    of well-formed frames keep holds after every stream of messages. *)
Lemma deliver_invariant (P : viewer -> Prop) messages s :
  (forall s ev, logged_by_handlers ev = true -> P s -> P (log ev s)) ->
  (forall s b, P s -> P (set_isProcessing b s)) ->
  (forall s f, well_formed f -> P s -> P (state_of (ingest f s))) ->
  P s -> P (deliver inflate messages s).
Proof.
  intros Hlog Hflag Hingest. revert s.
  induction messages as [|m messages IH]; intros s HP; [done|].
  simpl. apply IH.
  destruct (handleWebSocketMessage_cases m s)
    as [(_ & ->)|[(_ & _ & e & He)|(_ & f & Hf & ->)]].
  - by apply Hlog.
  - destruct e as [name|msg].
    + rewrite He. simpl. auto 10.
    + destruct He as [_ ->]. simpl. auto 10.
  - apply Hingest; [by eapply decoded_well_formed | auto].
Qed.

End SessionFacts.

Section InvariantsOfSessions.

Lemma shape_of_log ev s : shape_of (log ev s) = shape_of s.
Proof. reflexivity. Qed.

Lemma shape_of_set_isProcessing b s : shape_of (set_isProcessing b s) = shape_of s.
Proof. reflexivity. Qed.

Lemma bindings_ingest f s :
  array <$> attr_position s = positions s ->
  (forall c, array <$> attr_color s = Some c -> colors s = Some c) ->
  let s' := state_of (ingest f s) in
  array <$> attr_position s' = positions s'
  /\ (forall c, array <$> attr_color s' = Some c -> colors s' = Some c).
Proof.
  intros Hp Hc s'. subst s'.
  assert (Hkeep : bindings (state_of (ingest f s))
                  = bindings (state_of (ite (fun s => maxPoints s <? numPoints f)
                                         (reallocate (colorsArray f) (numPoints f)) skip s))).
  { unfold ingest, updatePointCloud.
    rewrite obs_try_finally by (by apply preserves_assign).
    rewrite obs_try_catch
      by (intros e; apply preserves_seq; by apply preserves_assign).
    unfold updatePointCloud_try. apply obs_seq.
    repeat apply preserves_seq.
    - apply positions_set_keeps. intros; reflexivity.
    - apply position_needsUpdate_keeps. intros a v s0 H. unfold bindings. cbn. by rewrite H.
    - apply colour_copy_keeps; [intros; reflexivity|].
      intros a v s0 H. unfold bindings. cbn. by rewrite H.
    - by apply preserves_assign.
    - apply first_update_keeps. intros; reflexivity. }
  unfold bindings in Hkeep. injection Hkeep as -> -> -> ->.
  unfold ite. destruct (maxPoints s <? numPoints f); [|done].
  unfold reallocate, seq, assign, new_Float32Array.
  destruct (colorsArray f); cbn; split; done.
Qed.

End InvariantsOfSessions.

(** In every session the renderer is bound to the current storage: the
    position attribute views the array [positions] refers to, which has
    [3*maxPoints] elements; a colour attribute on the geometry views the array
    [colors] refers to, which has [3*maxPoints] elements and is not the
    position array. *)
Theorem session_storage_bound
    (inflate : list byte -> completion (list byte)) (messages : list (list byte)) :
  let s := deliver inflate messages initial_viewer in
  0 <= maxPoints s
  /\ array <$> attr_position s = positions s
  /\ (forall p, positions s = Some p ->
        exists a, heap s !! p = Some a /\ length a = Z.to_nat (maxPoints s * 3))
  /\ (positions s = None -> maxPoints s = 0)
  /\ (forall c, array <$> attr_color s = Some c ->
        colors s = Some c /\ positions s <> Some c
        /\ exists a, heap s !! c = Some a /\ length a = Z.to_nat (maxPoints s * 3)).
Proof.
  intros s.
  assert (H : invariant s
              /\ array <$> attr_position s = positions s
              /\ (forall c, array <$> attr_color s = Some c -> colors s = Some c)).
  { subst s. apply deliver_invariant.
    - intros s ev _ (Hi & Hb). split; [exact Hi | exact Hb].
    - intros s b (Hi & Hb). split; [exact Hi | exact Hb].
    - intros s f _ (Hi & Hp & Hc). split; [by apply invariant_ingest|].
      by apply bindings_ingest.
    - split; [apply invariant_initial | done]. }
  destruct H as (Hinv & Hp & Hc).
  unfold invariant, shape_of in Hinv. destruct Hinv as (Hm & Hpos & Hcol & Hdiff).
  split; [done|]. split; [done|]. split; [|split].
  - intros p Hp'. rewrite Hp' in Hpos. destruct Hpos as [Hl _].
    rewrite list_lookup_fmap in Hl. destruct (heap s !! p) as [a|]; [|done].
    injection Hl as Hl. eauto.
  - intros Hnone. rewrite Hnone in Hpos. by destruct Hpos.
  - intros c Hattr. pose proof (Hc c Hattr) as Hc'. split; [done|].
    destruct (Hdiff c Hc') as [_ Hne]. split; [done|].
    destruct (attr_color s) as [a0|]; [|done].
    destruct (Hcol eq_refl) as (c' & Hc'' & Hl).
    assert (c' = c) as -> by congruence.
    rewrite list_lookup_fmap in Hl. destruct (heap s !! c) as [a|]; [|done].
    injection Hl as Hl. eauto.
Qed.

Lemma deliver_draw_range
    (inflate : list byte -> completion (list byte)) (messages : list (list byte)) :
  forall d, drawRange_count (deliver inflate messages initial_viewer) = Some d ->
            0 <= d <= maxPoints (deliver inflate messages initial_viewer).
Proof.
  apply (deliver_invariant inflate
           (fun s => 0 <= maxPoints s
                     /\ forall d, drawRange_count s = Some d -> 0 <= d <= maxPoints s)).
  - done.
  - done.
  - intros s f (Hn & _) (Hm & Hd).
    pose proof (ingest_maxPoints f s) as Hmax.
    pose proof (updatePointCloud_tells (positionsArray f) (colorsArray f)
                  (numPoints f) s) as [_ Hdisp].
    fold (ingest f s) in Hdisp. split; [lia|]. intros d Hd'.
    destruct (raised _) as [e|].
    + destruct Hdisp as (Hsame & _). rewrite Hsame in Hd'. specialize (Hd d Hd'). lia.
    + destruct Hdisp as (Hset & _). rewrite Hset in Hd'. injection Hd' as <-. lia.
  - split; [done | discriminate].
Qed.

(** In every session the draw range is either still the initial one or a
    point count between [0] and the capacity. *)
Theorem session_draw_range_within_capacity
    (inflate : list byte -> completion (list byte)) (messages : list (list byte)) :
  let s := deliver inflate messages initial_viewer in
  match drawRange_count s with
  | Some d => 0 <= d <= maxPoints s
  | None => True
  end.
Proof.
  intros s. subst s. destruct (drawRange_count _) as [d|] eqn:Hd; [|done].
  by apply deliver_draw_range.
Qed.

Section CameraFacts.

Lemma camera_fits_log ev s :
  camera_fits (log ev s) = (camera_fits s + if is_fit ev then 1 else 0)%nat.
Proof.
  unfold camera_fits, log. cbn. rewrite List.filter_app, length_app. simpl.
  by destruct (is_fit ev).
Qed.

End CameraFacts.

(** In every session the camera is fitted at most once: not at all while no
    ingest has completed (the draw range is then still the initial one), and
    exactly once from the first completed ingest on. *)
Theorem session_camera_fitted_once
    (inflate : list byte -> completion (list byte)) (messages : list (list byte)) :
  let s := deliver inflate messages initial_viewer in
  camera_fits s = (if isFirstUpdate s then 0 else 1)%nat
  /\ (isFirstUpdate s = true <-> drawRange_count s = None).
Proof.
  intros s. subst s.
  apply (deliver_invariant inflate
           (fun s => camera_fits s = (if isFirstUpdate s then 0 else 1)%nat
                     /\ (isFirstUpdate s = true <-> drawRange_count s = None))).
  - intros s ev Hev [Hfit Hdr]. split; [|done].
    rewrite camera_fits_log. cbn [isFirstUpdate log set_trace].
    destruct ev; try discriminate; simpl; lia.
  - done.
  - intros s f _ [Hfit Hdr].
    pose proof (updatePointCloud_tells (positionsArray f) (colorsArray f)
                  (numPoints f) s) as [_ Hdisp].
    fold (ingest f s) in Hdisp.
    destruct (raised _) as [e|].
    + destruct Hdisp as (Hd & Hf & Ht & _). split.
      * unfold camera_fits. rewrite Ht, Hf, List.filter_app, length_app. simpl.
        fold (camera_fits s). lia.
      * by rewrite Hf, Hd.
    + destruct Hdisp as (Hd & Hf & Ht & _). split.
      * unfold camera_fits. rewrite Ht, Hf, List.filter_app, length_app.
        fold (camera_fits s). rewrite Hfit. by destruct (isFirstUpdate s).
      * rewrite Hf, Hd. split; discriminate.
  - split; [done | done].
Qed.

Section AdmissionLogFacts.

Variable inflate : list byte -> completion (list byte).

Lemma admission_events_log ev s :
  admission_events (log ev s)
  = admission_events s ++ (if is_admission ev then [ev] else []).
Proof.
  unfold admission_events, log. cbn. rewrite List.filter_app. simpl.
  by destruct (is_admission ev).
Qed.

Lemma ingest_admission_events f s :
  admission_events (state_of (ingest f s)) = admission_events s.
Proof.
  unfold ingest. apply updatePointCloud_keeps; try (intros; reflexivity).
  - intros s0 _. rewrite admission_events_log. simpl. by rewrite app_nil_r.
  - intros e s0. unfold admission_events. cbn. rewrite List.filter_app. simpl.
    by rewrite app_nil_r.
Qed.

Lemma ingest_isProcessing f s : isProcessing (state_of (ingest f s)) = false.
Proof.
  unfold ingest.
  destruct (updatePointCloud_clears_flag (positionsArray f) (colorsArray f)
              (numPoints f) s) as (s' & -> & Hflag).
  done.
Qed.

(** From an idle session, a stream on which the decompressor throws no
    string hands every message to the decompressor, in order, and bounces
    none. *)
Lemma deliver_admits_all messages s :
  isProcessing s = false ->
  Forall (fun m => forall msg, inflate m <> Throw (PrimitiveString msg)) messages ->
  admission_events (deliver inflate messages s)
  = admission_events s ++ (PakoInflate <$> messages)
  /\ isProcessing (deliver inflate messages s) = false.
Proof.
  intros Hidle Hall. revert s Hidle.
  induction Hall as [|m messages Hm Hall IH]; intros s Hidle; simpl.
  - by rewrite app_nil_r.
  - destruct (handleWebSocketMessage_cases inflate m s)
      as [(Hbusy & _)|[(_ & _ & e & He)|(_ & f & Hf & Ho)]].
    + congruence.
    + destruct e as [name|msg].
      * rewrite He. simpl.
        destruct (IH (set_isProcessing false
                        (log (ErrorParsing (ErrorObject name))
                           (log (PakoInflate m) (set_isProcessing true s)))))
          as [-> ->]; [done|].
        split; [|done].
        change (admission_events (set_isProcessing false ?x)) with (admission_events x).
        rewrite !admission_events_log. simpl.
        change (admission_events (set_isProcessing true s)) with (admission_events s).
        rewrite app_nil_r, <- app_assoc. done.
      * destruct He as [Hthrow _]. by destruct (Hm msg).
    + rewrite Ho.
      destruct (IH (state_of (ingest f (log (PakoInflate m) (set_isProcessing true s)))))
        as [-> ->]; [apply ingest_isProcessing|].
      split; [|done].
      rewrite ingest_admission_events, admission_events_log. simpl.
      change (admission_events (set_isProcessing true s)) with (admission_events s).
      by rewrite <- app_assoc.
Qed.

End AdmissionLogFacts.

(** No frame is ever dropped while the decompressor throws no string: the
    pipeline runs to completion inside the message handler, so every message
    of a session finds the flag cleared, is handed to the decompressor in
    arrival order, and none is bounced. *)
Theorem session_admits_every_message
    (inflate : list byte -> completion (list byte)) (messages : list (list byte)) :
  Forall (fun m => forall msg, inflate m <> Throw (PrimitiveString msg)) messages ->
  let s := deliver inflate messages initial_viewer in
  admission_events s = PakoInflate <$> messages
  /\ isProcessing s = false.
Proof.
  intros Hall s. subst s.
  destruct (deliver_admits_all inflate messages initial_viewer eq_refl Hall) as [H1 H2].
  split; [exact H1 | exact H2].
Qed.

Lemma session_admits_every_message_witness :
  let messages := [x78 :: x9c :: coloured_frame_1_bytes; [x78; x9c; x00];
                   x78 :: x9c :: coloured_frame_1_bytes] in
  let s := deliver sample_inflate messages initial_viewer in
  admission_events s = PakoInflate <$> messages
  /\ isProcessing s = false.
Proof.
  apply (session_admits_every_message sample_inflate
           [x78 :: x9c :: coloured_frame_1_bytes; [x78; x9c; x00];
            x78 :: x9c :: coloured_frame_1_bytes]).
  repeat constructor; intros msg; discriminate.
Defined.

(** A message the decompressor rejects with an error object, or the codec
    rejects, changes nothing but the console: the geometry, the draw range and
    the flag are as before, and the page shows no error for it (the handler's
    [error.value = ...] assigns to the caught error, not to the page). *)
Theorem rejected_message_changes_only_the_console
    (inflate : list byte -> completion (list byte)) (data : list byte) (s : viewer) :
  isProcessing s = false ->
  decoded inflate data = None ->
  (forall msg, inflate data <> Throw (PrimitiveString msg)) ->
  exists name,
    handleWebSocketMessage inflate data s
    = Done (set_trace (trace s ++ [PakoInflate data; ErrorParsing (ErrorObject name)]) s).
Proof.
  intros Hidle Hnone Hnostring.
  destruct (handleWebSocketMessage_cases inflate data s)
    as [(Hbusy & _)|[(_ & _ & e & He)|(_ & f & Hf & _)]]; [congruence| |congruence].
  destruct e as [name|msg].
  - exists name. rewrite He. f_equal.
    destruct s. cbn in *. subst.
    unfold set_isProcessing, log, set_trace. cbn. by rewrite <- app_assoc.
  - destruct He as [Hthrow _]. by destruct (Hnostring msg).
Qed.

Lemma rejected_message_changes_only_the_console_witness :
  exists name,
    handleWebSocketMessage sample_inflate [x78; x9c; x05; x00; x00; x00; x00]
      (ingest_all [coloured_frame_2] initial_viewer)
    = Done (set_trace
              (trace (ingest_all [coloured_frame_2] initial_viewer)
               ++ [PakoInflate [x78; x9c; x05; x00; x00; x00; x00];
                   ErrorParsing (ErrorObject name)])
              (ingest_all [coloured_frame_2] initial_viewer)).
Proof.
  apply (rejected_message_changes_only_the_console sample_inflate
           [x78; x9c; x05; x00; x00; x00; x00]
           (ingest_all [coloured_frame_2] initial_viewer)).
  - eval_eq.
  - eval_eq.
  - intros msg. discriminate.
Defined.

(** The error message of the page is never cleared by the stream: after any
    messages it is what it was, or 'Error updating point cloud'. *)
Theorem session_error_message_sticks
    (inflate : list byte -> completion (list byte)) (messages : list (list byte))
    (s : viewer) :
  error_value (deliver inflate messages s) = error_value s
  \/ error_value (deliver inflate messages s)
     = Some "Error updating point cloud"%string.
Proof.
  apply (deliver_invariant inflate
           (fun s' => error_value s' = error_value s
                      \/ error_value s' = Some "Error updating point cloud"%string)).
  - done.
  - done.
  - intros s0 f _ H.
    pose proof (updatePointCloud_tells (positionsArray f) (colorsArray f)
                  (numPoints f) s0) as [_ Hdisp].
    fold (ingest f s0) in Hdisp.
    destruct (raised _) as [e|].
    + right. by destruct Hdisp as (_ & _ & _ & ->).
    + destruct Hdisp as (_ & _ & _ & ->). done.
  - by left.
Qed.

(** A frame that fits the capacity overwrites only the first [3*numPoints]
    elements of the position array: the array is the same one, and what the
    earlier frames left beyond that range stays (no reallocation, no clear). *)
Theorem fitting_frame_keeps_the_tail
    (history : list DecodedFrame) (f : DecodedFrame) (old : list F32.t) :
  well_formed f ->
  let s := ingest_all history initial_viewer in
  let s' := state_of (ingest f s) in
  numPoints f <= maxPoints s ->
  deref s (positions s) = Some old ->
  positions s' = positions s
  /\ deref s' (positions s')
     = Some (positionsArray f ++ drop (length (positionsArray f)) old).
Proof.
  intros (Hn & Hlen & _) s s' Hfits Hold.
  assert (Hinv : invariant s) by apply invariant_ingest_all, invariant_initial.
  destruct (capacity_check_cases (colorsArray f) (numPoints f) s)
    as (s1 & Hcheck & Hmax & [(Hlt & _)|(_ & ->)]); [lia|].
  set (src := take (Z.to_nat (numPoints f * 3)) (positionsArray f)).
  assert (Hsrc : src = positionsArray f) by (subst src; apply take_ge; lia).
  assert (Hpos : is_Some (positions s)).
  { unfold deref in Hold. destruct (positions s); [eauto | done]. }
  destruct (positions_set_done src s Hinv Hpos) as (p & target & Hp & Ht & Hset).
  { subst src. rewrite length_take. lia. }
  pose proof (updatePointCloud_position_view p (positionsArray f) (colorsArray f)
                (numPoints f) s s _ Hcheck Hset) as Hview.
  fold (ingest f s) in Hview. fold s' in Hview.
  unfold position_view in Hview. cbn [positions colors heap set_heap] in Hview.
  assert (Hne : colors s <> Some p).
  { unfold invariant, shape_of in Hinv. destruct Hinv as (_ & _ & _ & Hc).
    intros Hcp. destruct (Hc p Hcp) as [_ Hdiff]. by rewrite Hp in Hdiff. }
  injection Hview as Hp' Hc' Hh'. rewrite Hc' in Hh'.
  destruct (decide (colors s = Some p)) as [|_]; [done|].
  split; [done|].
  unfold deref in *. rewrite Hp', Hp in *. cbn in *. rewrite Hh'.
  rewrite list_lookup_insert_eq by (by apply lookup_lt_Some in Ht).
  rewrite Ht in Hold. injection Hold as <-. by rewrite Hsrc.
Qed.

Lemma fitting_frame_keeps_the_tail_witness :
  let s := ingest_all [plain_frame_2] initial_viewer in
  let s' := state_of (ingest plain_frame_1 s) in
  positions s' = positions s
  /\ deref s' (positions s')
     = Some (positionsArray plain_frame_1
             ++ drop (length (positionsArray plain_frame_1)) (positionsArray plain_frame_2)).
Proof.
  apply (fitting_frame_keeps_the_tail [plain_frame_2] plain_frame_1
           (positionsArray plain_frame_2)).
  - frame_ok.
  - vm_compute. discriminate.
  - eval_eq.
Defined.

(** * Archive frames *)

Section ColumnFacts.

Context {number : Type}.
Implicit Types (row : list (Archive.value number)) (a : list (Archive.value number)).
Implicit Types (properties : gmap string (list (Archive.value number))).

Lemma store_row_other row i names j properties name :
  name ∉ names ->
  Archive.store_row row i names j properties !! name = properties !! name.
Proof.
  revert j properties. induction names as [|n names IH]; intros j properties Hn; [done|].
  apply not_elem_of_cons in Hn as [Hne Hn]. cbn.
  rewrite IH by done. by rewrite lookup_alter_ne.
Qed.

Lemma store_row_lookup row i names j k properties name :
  NoDup names -> names !! k = Some name ->
  Archive.store_row row i names j properties !! name
  = (fun a => <[i := Archive.element row (j + k)]> a) <$> properties !! name.
Proof.
  revert j k properties. induction names as [|n names IH]; intros j k properties Hd Hk; [done|].
  apply NoDup_cons in Hd as [Hn Hd]. destruct k as [|k]; cbn in *.
  - injection Hk as ->. rewrite store_row_other by done.
    rewrite Nat.add_0_r. apply lookup_alter_eq.
  - rewrite (IH (S j) k) by done.
    rewrite lookup_alter_ne; [by rewrite Nat.add_succ_r|].
    intros ->. apply Hn. by eapply list_elem_of_lookup_2.
Qed.

Lemma store_flat_row_other (data : list (Archive.value number)) i names j properties name :
  name ∉ names ->
  Archive.store_flat_row data i names j properties !! name = properties !! name.
Proof.
  revert j properties. induction names as [|n names IH]; intros j properties Hn; [done|].
  apply not_elem_of_cons in Hn as [Hne Hn]. cbn -[Archive.property_names].
  rewrite IH by done. by rewrite lookup_alter_ne.
Qed.

Lemma store_flat_row_lookup (data : list (Archive.value number)) i names j k properties name :
  NoDup names -> names !! k = Some name ->
  Archive.store_flat_row data i names j properties !! name
  = (fun a => <[i := Archive.element data (i * length Archive.property_names + (j + k))]> a)
      <$> properties !! name.
Proof.
  revert j k properties. induction names as [|n names IH]; intros j k properties Hd Hk; [done|].
  apply NoDup_cons in Hd as [Hn Hd]. destruct k as [|k]; cbn -[Archive.property_names] in *.
  - injection Hk as ->. rewrite store_flat_row_other by done.
    rewrite Nat.add_0_r. apply lookup_alter_eq.
  - rewrite (IH (S j) k) by done.
    rewrite lookup_alter_ne; [by rewrite Nat.add_succ_r|].
    intros ->. apply Hn. by eapply list_elem_of_lookup_2.
Qed.

Lemma property_names_NoDup : NoDup Archive.property_names.
Proof. apply (bool_decide_unpack _). vm_compute. done. Qed.

Lemma new_properties_lookup n k name :
  Archive.property_names !! k = Some name ->
  Archive.new_properties (number := number) n !! name = Some (replicate n Archive.Undefined).
Proof.
  intros Hk. unfold Archive.new_properties. cbn.
  do 6 (destruct k as [|k]; [injection Hk as <-; by simplify_map_eq|]).
  done.
Qed.

(** Writing one element after the other fills a column. *)
Lemma insert_next {T} (a : list T) i v :
  (i < length a)%nat ->
  take (S i) (<[i := v]> a) = take i a ++ [v]
  /\ forall n, drop (S i + n) (<[i := v]> a) = drop (S i + n) a.
Proof.
  intros Hi. split.
  - rewrite (take_S_r _ _ v) by (by apply list_lookup_insert_eq).
    by rewrite take_insert_ge by lia.
  - intros n. apply drop_insert_lt. lia.
Qed.

Lemma store_rows_lookup (data : list (list (Archive.value number))) i k properties name a :
  Archive.property_names !! k = Some name ->
  properties !! name = Some a ->
  (i + length data <= length a)%nat ->
  Archive.store_rows data i properties !! name
  = Some (take i a ++ ((fun row => Archive.element row k) <$> data)
            ++ drop (i + length data) a).
Proof.
  intros Hk. revert i properties a.
  induction data as [|row data IH]; intros i properties a Ha Hlen; cbn [Archive.store_rows].
  - cbn. by rewrite Nat.add_0_r, take_drop.
  - cbn [length] in Hlen.
    erewrite IH; cycle 1.
    + rewrite (store_row_lookup _ _ _ _ k) by (done || apply property_names_NoDup).
      rewrite Ha. done.
    + rewrite length_insert. lia.
    + destruct (insert_next a i (Archive.element row (0 + k))) as [-> Hdrop]; [lia|].
      rewrite Hdrop. cbn. rewrite <- app_assoc. cbn.
      by rewrite Nat.add_succ_r.
Qed.

Lemma store_flat_lookup (data : list (Archive.value number)) count i k properties name a :
  Archive.property_names !! k = Some name ->
  properties !! name = Some a ->
  (i + count <= length a)%nat ->
  Archive.store_flat data count i properties !! name
  = Some (take i a
            ++ ((fun i' => Archive.element data (i' * length Archive.property_names + k))
                  <$> List.seq i count)
            ++ drop (i + count) a).
Proof.
  intros Hk. revert i properties a.
  induction count as [|count IH]; intros i properties a Ha Hlen; cbn [Archive.store_flat].
  - cbn. by rewrite Nat.add_0_r, take_drop.
  - erewrite IH; cycle 1.
    + rewrite (store_flat_row_lookup _ _ _ _ k) by (done || apply property_names_NoDup).
      rewrite Ha. done.
    + rewrite length_insert. lia.
    + match goal with |- context [<[i := ?v]> a] =>
        destruct (insert_next a i v) as [-> Hdrop]; [lia|] end.
      rewrite Hdrop. cbn -[Archive.property_names]. rewrite <- app_assoc.
      cbn -[Archive.property_names]. by rewrite Nat.add_succ_r.
Qed.

Lemma column_store_rows (data : list (list (Archive.value number))) k name :
  Archive.property_names !! k = Some name ->
  Archive.column (Archive.store_rows data 0 (Archive.new_properties (length data))) name
  = (fun row => Archive.element row k) <$> data.
Proof.
  intros Hk. unfold Archive.column.
  erewrite store_rows_lookup; [| done | by eapply new_properties_lookup |];
    [|rewrite length_replicate; lia].
  cbn. rewrite drop_ge by (rewrite length_replicate; lia). by rewrite app_nil_r.
Qed.

Lemma column_store_flat (data : list (Archive.value number)) n k name :
  Archive.property_names !! k = Some name ->
  Archive.column (Archive.store_flat data n 0 (Archive.new_properties n)) name
  = (fun i => Archive.element data (i * length Archive.property_names + k)) <$> List.seq 0 n.
Proof.
  intros Hk. unfold Archive.column.
  erewrite store_flat_lookup; [| done | by eapply new_properties_lookup |];
    [|rewrite length_replicate; lia].
  cbn -[Archive.property_names].
  rewrite drop_ge by (rewrite length_replicate; lia). by rewrite app_nil_r.
Qed.

(** The interleaving loop writes the three columns side by side. *)
Lemma interleave_spec {T} (store : Archive.value number -> T) a b c count i
    (pre rest : list T) :
  length pre = (i * 3)%nat -> length rest = (count * 3)%nat ->
  Archive.interleave store a b c count i (pre ++ rest)
  = pre ++ (List.seq i count ≫= fun j =>
              [store (Archive.element a j); store (Archive.element b j);
               store (Archive.element c j)]).
Proof.
  revert i pre rest. induction count as [|count IH]; intros i pre rest Hpre Hrest.
  - destruct rest; [|done]. done.
  - destruct rest as [|r0 [|r1 [|r2 rest]]]; try (cbn in Hrest; lia).
    cbn [Archive.interleave List.seq].
    rewrite <- Hpre.
    rewrite (insert_app_r_alt pre _ (length pre)) by lia.
    rewrite (insert_app_r_alt pre _ (length pre + 1)) by lia.
    rewrite (insert_app_r_alt pre _ (length pre + 2)) by lia.
    replace (length pre - length pre)%nat with 0%nat by lia.
    replace (length pre + 1 - length pre)%nat with 1%nat by lia.
    replace (length pre + 2 - length pre)%nat with 2%nat by lia.
    cbn [insert list_insert].
    change (pre ++ ?x :: ?y :: ?z :: rest) with (pre ++ [x; y; z] ++ rest).
    rewrite app_assoc, IH.
    + by rewrite <- app_assoc.
    + rewrite length_app. cbn. lia.
    + cbn in Hrest. lia.
Qed.

Lemma interleave_fresh {T} (store : Archive.value number -> T) a b c n (z : T) :
  Archive.interleave store a b c n 0 (replicate (n * 3) z)
  = (List.seq 0 n ≫= fun j =>
       [store (Archive.element a j); store (Archive.element b j);
        store (Archive.element c j)]).
Proof.
  apply (interleave_spec store a b c n 0 [] (replicate (n * 3) z));
    [done | by rewrite length_replicate].
Qed.

Lemma bind_seq_lookup {X Y} (l : list X) (F : option X -> list Y) :
  (List.seq 0 (length l) ≫= fun j => F (l !! j)) = (l ≫= fun x => F (Some x)).
Proof.
  induction l as [|x l IH]; [done|]. cbn [length List.seq]. rewrite !bind_cons.
  cbn [lookup list_lookup]. f_equal. rewrite <- IH, <- fmap_S_seq.
  by rewrite list_fmap_bind.
Qed.

End ColumnFacts.

Section GeometryFacts.

Context {number : Type} (ToFloat32 : number -> F32.t) (ToUint8 : number -> Z).

Lemma triples_of_columns {X T} (store : Archive.value number -> T) (data : list X)
    (ca cb cc : X -> Archive.value number) :
  (List.seq 0 (length data) ≫= fun j =>
     [store (Archive.element (ca <$> data) j); store (Archive.element (cb <$> data) j);
      store (Archive.element (cc <$> data) j)])
  = (data ≫= fun x => [store (ca x); store (cb x); store (cc x)]).
Proof.
  induction data as [|x data IH]; [done|].
  cbn [length List.seq]. rewrite !bind_cons, <- fmap_S_seq, list_fmap_bind.
  f_equal. exact IH.
Qed.

(** A geometry is made of the six columns alone. *)
Lemma geometry_of_columns {X} properties (data : list X)
    (col : nat -> X -> Archive.value number) :
  (forall k name, Archive.property_names !! k = Some name ->
                  Archive.column properties name = col k <$> data) ->
  Archive.geometry_of ToFloat32 ToUint8 properties (length data)
  = {| Archive.positions :=
         data ≫= fun x => [Archive.float32_of ToFloat32 (col 0%nat x);
                            Archive.float32_of ToFloat32 (col 1%nat x);
                            Archive.float32_of ToFloat32 (col 2%nat x)];
       Archive.colors :=
         data ≫= fun x => [Archive.uint8_of ToUint8 (col 3%nat x);
                            Archive.uint8_of ToUint8 (col 4%nat x);
                            Archive.uint8_of ToUint8 (col 5%nat x)] |}.
Proof.
  intros Hcol. unfold Archive.geometry_of.
  rewrite (Hcol 0%nat "x"%string eq_refl), (Hcol 1%nat "y"%string eq_refl),
    (Hcol 2%nat "z"%string eq_refl), (Hcol 3%nat "red"%string eq_refl),
    (Hcol 4%nat "green"%string eq_refl), (Hcol 5%nat "blue"%string eq_refl).
  f_equal.
  - rewrite interleave_fresh. apply triples_of_columns.
  - rewrite interleave_fresh. apply triples_of_columns.
Qed.

Lemma element_concat (rows : list (list (Archive.value number))) i k :
  Forall (fun row => length row = 6%nat) rows -> (k < 6)%nat ->
  Archive.element (concat rows) (i * 6 + k)
  = match rows !! i with Some row => Archive.element row k | None => Archive.Undefined end.
Proof.
  intros Hrows Hk. revert i. induction Hrows as [|row rows Hrow Hrows IH]; intros i.
  - done.
  - unfold Archive.element in *. cbn [concat]. destruct i as [|i].
    + cbn [lookup list_lookup]. by rewrite lookup_app_l by lia.
    + rewrite lookup_app_r by lia.
      replace (S i * 6 + k - length row)%nat with (i * 6 + k)%nat by lia.
      apply IH.
Qed.

Lemma length_concat_rows {X} (rows : list (list X)) :
  Forall (fun row => length row = 6%nat) rows ->
  length (concat rows) = (length rows * 6)%nat.
Proof. induction 1 as [|row rows Hrow _ IH]; cbn; [done|]. rewrite length_app. lia. Qed.

Lemma build_geometry_rows (data : list (list (Archive.value number))) :
  Archive.build_geometry ToFloat32 ToUint8 data
  = {| Archive.positions :=
         data ≫= fun row => Archive.float32_of ToFloat32
                               <$> [Archive.element row 0; Archive.element row 1;
                                    Archive.element row 2];
       Archive.colors :=
         data ≫= fun row => Archive.uint8_of ToUint8
                               <$> [Archive.element row 3; Archive.element row 4;
                                    Archive.element row 5] |}.
Proof.
  unfold Archive.build_geometry. cbv zeta.
  rewrite (geometry_of_columns _ data (fun k row => Archive.element row k)); [done|].
  intros k name Hk. by apply column_store_rows.
Qed.

Lemma build_flat_geometry_rows (rows : list (list (Archive.value number))) :
  Forall (fun row => length row = 6%nat) rows ->
  Archive.build_flat_geometry ToFloat32 ToUint8 (concat rows)
  = Normal (Archive.build_geometry ToFloat32 ToUint8 rows).
Proof.
  intros Hrows. rewrite build_geometry_rows. unfold Archive.build_flat_geometry.
  change (length Archive.property_names) with 6%nat.
  rewrite (length_concat_rows rows Hrows), Nat.Div0.mod_mul, Nat.div_mul by done.
  cbn [Nat.eqb]. cbv zeta. f_equal.
  pose proof (geometry_of_columns
                (Archive.store_flat (concat rows) (length rows) 0
                   (Archive.new_properties (length rows)))
                (List.seq 0 (length rows))
                (fun k i => Archive.element (concat rows) (i * 6 + k))) as Hgeometry.
  rewrite length_seq in Hgeometry. rewrite Hgeometry.
  - f_equal.
    + etrans; [|exact (bind_seq_lookup rows (fun o =>
        [Archive.float32_of ToFloat32 (match o with Some row => Archive.element row 0 | None => Archive.Undefined end);
         Archive.float32_of ToFloat32 (match o with Some row => Archive.element row 1 | None => Archive.Undefined end);
         Archive.float32_of ToFloat32 (match o with Some row => Archive.element row 2 | None => Archive.Undefined end)]))].
      apply list_bind_ext; [|done]. intros i.
      by rewrite !element_concat by (done || lia).
    + etrans; [|exact (bind_seq_lookup rows (fun o =>
        [Archive.uint8_of ToUint8 (match o with Some row => Archive.element row 3 | None => Archive.Undefined end);
         Archive.uint8_of ToUint8 (match o with Some row => Archive.element row 4 | None => Archive.Undefined end);
         Archive.uint8_of ToUint8 (match o with Some row => Archive.element row 5 | None => Archive.Undefined end)]))].
      apply list_bind_ext; [|done]. intros i.
      by rewrite !element_concat by (done || lia).
  - intros k name Hk. by apply column_store_flat.
Qed.

End GeometryFacts.

(** The first reader de-interleaves each dataset into six columns and
    interleaves them again: the position attribute holds, point by point, the
    first three entries of each row as stored in a [Float32Array], the colour
    attribute the next three as stored in a [Uint8Array].  A row that is too
    short does not stop the load: its missing entries are [undefined] and
    give [NaN] positions and [0] colours. *)
Theorem archive_geometry_interleaves_rows {number : Type}
    (ToFloat32 : number -> F32.t) (ToUint8 : number -> Z)
    (data : list (list (Archive.value number))) :
  Archive.build_geometry ToFloat32 ToUint8 data
  = {| Archive.positions :=
         data ≫= fun row => Archive.float32_of ToFloat32
                               <$> [Archive.element row 0; Archive.element row 1;
                                    Archive.element row 2];
       Archive.colors :=
         data ≫= fun row => Archive.uint8_of ToUint8
                               <$> [Archive.element row 3; Archive.element row 4;
                                    Archive.element row 5] |}
  /\ Archive.float32_of ToFloat32 (Archive.element [] 0) = F32.NaN
  /\ Archive.uint8_of ToUint8 (Archive.element [] 3) = 0.
Proof.
  split; [apply build_geometry_rows | done].
Qed.

(** The second reader, given the rows of a dataset laid end to end, builds the
    geometry the first reader builds from the rows. *)
Theorem flat_geometry_agrees_with_rows {number : Type}
    (ToFloat32 : number -> F32.t) (ToUint8 : number -> Z)
    (rows : list (list (Archive.value number))) :
  Forall (fun row => length row = 6%nat) rows ->
  Archive.build_flat_geometry ToFloat32 ToUint8 (concat rows)
  = Normal (Archive.build_geometry ToFloat32 ToUint8 rows).
Proof. apply build_flat_geometry_rows. Qed.

Lemma flat_geometry_agrees_with_rows_witness :
  let ToFloat32 := fun x : Z => F32.of_ratio x 1 in
  let ToUint8 := fun x : Z => x mod 256 in
  let rows :=
    [[Archive.Num 1; Archive.Num 2; Archive.Num 3;
      Archive.Num 255; Archive.Num 0; Archive.Num 128];
     [Archive.Num 4; Archive.Num 5; Archive.Num 6;
      Archive.Num 10; Archive.Num 20; Archive.Num 30]] in
  Archive.build_flat_geometry ToFloat32 ToUint8 (concat rows)
  = Normal (Archive.build_geometry ToFloat32 ToUint8 rows).
Proof.
  intros ToFloat32 ToUint8 rows.
  apply (flat_geometry_agrees_with_rows ToFloat32 ToUint8 rows).
  repeat constructor.
Defined.

Section SortPermutes.

Context {A : Type} (comparefn : A -> A -> completion Z).

Lemma insert_sorted_permutes x l r :
  insert_sorted comparefn x l = Normal r -> r ≡ₚ x :: l.
Proof.
  revert r. induction l as [|y ys IH]; intros r; cbn.
  - by intros [= <-].
  - destruct (comparefn x y) as [v|e]; bind_simpl; [|done].
    destruct (v <=? 0); [by intros [= <-]|].
    destruct (insert_sorted comparefn x ys) as [r'|e]; bind_simpl; [|done].
    intros [= <-]. rewrite (IH r' eq_refl). apply Permutation_swap.
Qed.

Lemma Array_sort_permutes l r :
  Array_sort comparefn l = Normal r -> r ≡ₚ l.
Proof.
  revert r. induction l as [|x xs IH]; intros r; cbn.
  - by intros [= <-].
  - destruct (Array_sort comparefn xs) as [r0|e]; bind_simpl; [|done].
    intros Hr. apply insert_sorted_permutes in Hr. by rewrite Hr, (IH r0 eq_refl).
Qed.

End SortPermutes.

Section LoadFacts.

Context {number : Type} (ToFloat32 : number -> F32.t) (ToUint8 : number -> Z).

Lemma get_key {D} (group : list (string * D)) name :
  name ∈ group.*1 -> is_Some (Archive.get group name).
Proof.
  induction group as [|[key d] group IH]; cbn; [by intros ?%elem_of_nil|].
  intros Hin. destruct (decide (key = name)); [done|].
  apply elem_of_cons in Hin as [->|Hin]; [done | auto].
Qed.

Lemma get_member {D} (group : list (string * D)) name d :
  NoDup group.*1 -> (name, d) ∈ group -> Archive.get group name = Some d.
Proof.
  induction group as [|[key d'] group IH]; cbn; [by intros _ ?%elem_of_nil|].
  intros [Hkey Hd]%NoDup_cons Hin.
  apply elem_of_cons in Hin as [[= <- <-]|Hin].
  - by rewrite decide_True.
  - rewrite decide_False; [auto|]. intros ->. apply Hkey.
    apply list_elem_of_fmap. by exists (name, d).
Qed.

Lemma process_frames_collects group frame_names frames :
  Forall (fun name => is_Some (Archive.get group name)) frame_names ->
  Archive.process_frames ToFloat32 ToUint8 group frame_names frames
  = Normal (frames ++ (Archive.build_geometry ToFloat32 ToUint8
                         <$> omap (Archive.usable group) frame_names)).
Proof.
  intros Hall. revert frames.
  induction Hall as [|name names [d Hd] _ IH]; intros frames; cbn.
  - by rewrite app_nil_r.
  - unfold Archive.usable. rewrite Hd.
    destruct d as [|[|row rows]]; [apply IH | apply IH |].
    rewrite IH. cbn. by rewrite <- app_assoc.
Qed.

Lemma process_flat_frames_ragged group frame_names frames name data :
  Forall (fun name => is_Some (Archive.get group name)) frame_names ->
  name ∈ frame_names ->
  Archive.get group name = Some (Archive.Flat data) ->
  (length data mod 6 <> 0)%nat ->
  Archive.process_flat_frames ToFloat32 ToUint8 group frame_names frames
  = Throw (ErrorObject RangeError).
Proof.
  intros Hall Hin Hget Hragged. revert frames.
  induction Hall as [|n names [d Hd] _ IH]; intros frames; [by apply elem_of_nil in Hin|].
  cbn [Archive.process_flat_frames]. rewrite Hd.
  destruct (decide (n = name)) as [->|Hne].
  - rewrite Hget in Hd. injection Hd as <-.
    destruct data as [|v data]; [done|].
    unfold Archive.build_flat_geometry.
    change (length Archive.property_names) with 6%nat.
    apply Nat.eqb_neq in Hragged. by rewrite Hragged.
  - apply elem_of_cons in Hin as [->|Hin]; [done|].
    destruct d as [|[|v values]]; [by apply IH | by apply IH |].
    unfold Archive.build_flat_geometry.
    destruct (_ =? 0)%nat; bind_simpl; [by apply IH | done].
Qed.

End LoadFacts.

(** Loading an archive with the first reader.  When the sort of the frame
    names throws, the load fails with what was thrown.  Otherwise the load
    never throws while building frames: it goes through the sorted names,
    skips each dataset that is no array or is empty, builds one geometry from
    each of the others, in that order, and starts playback on them; it fails
    with 'No valid frames found in file' exactly when every dataset was
    skipped, so playback never starts on an empty list of frames. *)
Theorem archive_load_plays_usable_frames_in_sorted_order {number : Type}
    (ToFloat32 : number -> F32.t) (ToUint8 : number -> Z)
    (group : list (string * Archive.dataset number)) :
  Archive.processH5File ToFloat32 ToUint8 (Some group)
  = match sort_frame_names group.*1 with
    | Throw e => Archive.Failed (Archive.Thrown e)
    | Normal frame_names =>
        match omap (Archive.usable group) frame_names with
        | [] => Archive.Failed Archive.NoValidFrames
        | rows => Archive.Playing (Archive.build_geometry ToFloat32 ToUint8 <$> rows)
        end
    end.
Proof.
  unfold Archive.processH5File.
  destruct (sort_frame_names group.*1) as [frame_names|e] eqn:Hsort; [|done].
  rewrite process_frames_collects.
  - cbn. by destruct (omap _ frame_names).
  - apply Array_sort_permutes in Hsort. rewrite Forall_forall. intros name Hin.
    apply get_key. by rewrite <- Hsort.
Qed.

(** Loading an archive with the second reader.  One dataset whose length is
    not a multiple of six makes the whole load fail with a [RangeError],
    whatever the other datasets hold: the frame is not skipped. *)
Theorem flat_load_fails_on_ragged_dataset {number : Type}
    (ToFloat32 : number -> F32.t) (ToUint8 : number -> Z)
    (group : list (string * Archive.flat_dataset number)) name data :
  NoDup group.*1 ->
  (name, Archive.Flat data) ∈ group ->
  (length data mod 6 <> 0)%nat ->
  Archive.processH5File_flat ToFloat32 ToUint8 (Some group)
  = Archive.Failed (Archive.Thrown (ErrorObject RangeError)).
Proof.
  intros Hkeys Hin Hragged. unfold Archive.processH5File_flat.
  rewrite (process_flat_frames_ragged _ _ _ _ _ name data); [done | | | | done].
  - rewrite Forall_forall. intros n Hn. by apply get_key.
  - apply list_elem_of_fmap. by exists (name, Archive.Flat data).
  - by apply get_member.
Qed.

Lemma flat_load_fails_on_ragged_dataset_witness :
  let ToFloat32 := fun x : Z => F32.of_ratio x 1 in
  let ToUint8 := fun x : Z => x mod 256 in
  let whole :=
    [Archive.Num 1; Archive.Num 2; Archive.Num 3;
     Archive.Num 255; Archive.Num 0; Archive.Num 128] in
  let group :=
    [("frame1"%string, Archive.Flat whole);
     ("frame2"%string, Archive.Flat (whole ++ [Archive.Num 7]))] in
  Archive.processH5File_flat ToFloat32 ToUint8 (Some group)
  = Archive.Failed (Archive.Thrown (ErrorObject RangeError)).
Proof.
  intros ToFloat32 ToUint8 whole group.
  apply (flat_load_fails_on_ragged_dataset ToFloat32 ToUint8 group
           "frame2"%string (whole ++ [Archive.Num 7])).
  - apply (bool_decide_unpack _). vm_compute. reflexivity.
  - apply (list_elem_of_lookup_2 _ 1). reflexivity.
  - cbn. lia.
Defined.

(** * Playback *)

Section PlaybackFacts.

Context {time : Type} (falsy : time -> bool) (due : time -> time -> bool).

Lemma animate_inactive t (p : Playback.player time) :
  Playback.isActive p = false -> Playback.animate falsy due t p = p.
Proof. unfold Playback.animate. by intros ->. Qed.

Lemma run_inactive times (p : Playback.player time) :
  Playback.isActive p = false -> Playback.run falsy due times p = p.
Proof.
  intros Hp. unfold Playback.run. induction times as [|t times IH]; [done|].
  cbn. by rewrite animate_inactive.
Qed.

Lemma animate_active t (p : Playback.player time) :
  (0 < Playback.frames_length p)%nat ->
  (Playback.currentFrameIndex p < Playback.frames_length p)%nat ->
  Playback.isActive p = true ->
  let p' := Playback.animate falsy due t p in
  Playback.frames_length p' = Playback.frames_length p
  /\ Playback.isActive p' = true
  /\ (Playback.currentFrameIndex p' < Playback.frames_length p)%nat
  /\ (Playback.currentFrameIndex p' = Playback.currentFrameIndex p
      \/ Playback.currentFrameIndex p'
         = ((Playback.currentFrameIndex p + 1) mod Playback.frames_length p)%nat)
  /\ Playback.shown p' = Playback.shown p ++ [Playback.currentFrameIndex p'].
Proof.
  intros Hlen Hcur Hact. unfold Playback.animate. rewrite Hact. cbn.
  destruct (due t _); repeat split; auto.
  apply Nat.mod_upper_bound. lia.
Qed.

Lemma run_active times (p : Playback.player time) :
  (0 < Playback.frames_length p)%nat ->
  (Playback.currentFrameIndex p < Playback.frames_length p)%nat ->
  Playback.isActive p = true ->
  exists indices,
    Playback.shown (Playback.run falsy due times p) = Playback.shown p ++ indices
    /\ length indices = length times
    /\ Forall (fun i => (i < Playback.frames_length p)%nat) indices
    /\ Playback.follows (Playback.frames_length p) (Playback.currentFrameIndex p) indices
    /\ Playback.currentFrameIndex (Playback.run falsy due times p)
       = default (Playback.currentFrameIndex p) (last indices).
Proof.
  revert p. induction times as [|t times IH]; intros p Hlen Hcur Hact.
  - exists []. cbn. by rewrite app_nil_r.
  - destruct (animate_active t p Hlen Hcur Hact) as (Hl & Ha & Hc & Hstep & Hshown).
    destruct (IH (Playback.animate falsy due t p)) as (indices & Hs & Hn & Hall & Hf & Hlast);
      [by rewrite Hl | by rewrite Hl | done |].
    rewrite Hl in *.
    exists (Playback.currentFrameIndex (Playback.animate falsy due t p) :: indices).
    cbn [Playback.run foldl]. fold (Playback.run falsy due times (Playback.animate falsy due t p)).
    rewrite Hs, Hshown, <- app_assoc. split; [done|]. split; [by cbn; rewrite Hn|].
    split; [by constructor|]. split; [done|].
    rewrite Hlast, last_cons. by destruct (last indices).
Qed.

End PlaybackFacts.

(** Playback of the first reader.  While the component is active, every call
    of [animate] shows one frame; the index shown is within the frames and is
    either the index shown before or the next one around, so no frame is
    skipped however late a call comes.  Once the component is inactive,
    [animate] changes nothing. *)
Theorem playback_never_skips_a_frame {time : Type}
    (falsy : time -> bool) (due : time -> time -> bool)
    (times : list time) (p : Playback.player time) :
  (0 < Playback.frames_length p)%nat ->
  (Playback.currentFrameIndex p < Playback.frames_length p)%nat ->
  if Playback.isActive p
  then exists indices,
      Playback.shown (Playback.run falsy due times p) = Playback.shown p ++ indices
      /\ length indices = length times
      /\ Forall (fun i => (i < Playback.frames_length p)%nat) indices
      /\ Playback.follows (Playback.frames_length p) (Playback.currentFrameIndex p) indices
      /\ Playback.currentFrameIndex (Playback.run falsy due times p)
         = default (Playback.currentFrameIndex p) (last indices)
  else Playback.run falsy due times p = p.
Proof.
  intros Hlen Hcur. destruct (Playback.isActive p) eqn:Hact.
  - by apply run_active.
  - by apply run_inactive.
Qed.

Lemma playback_never_skips_a_frame_witness :
  let falsy := fun t : Z => t =? 0 in
  let due := fun t last : Z => 1000 <=? 30 * (t - last) in
  let p := {| Playback.frames_length := 3; Playback.currentFrameIndex := 2;
              Playback.lastFrameTime := 0; Playback.isActive := true;
              Playback.shown := [] |} in
  exists indices,
    Playback.shown (Playback.run falsy due [16; 33; 50; 300] p) = indices
    /\ length indices = 4%nat
    /\ Forall (fun i => (i < 3)%nat) indices
    /\ Playback.follows 3 2 indices
    /\ Playback.currentFrameIndex (Playback.run falsy due [16; 33; 50; 300] p)
       = default 2%nat (last indices).
Proof.
  intros falsy due p.
  apply (playback_never_skips_a_frame falsy due [16; 33; 50; 300] p); cbn; lia.
Defined.

Section FlatPlaybackFacts.

Lemma flat_animate_iter k (p : FlatPlayback.player) :
  (0 < FlatPlayback.frames_length p)%nat ->
  (FlatPlayback.currentFrameIndex p < FlatPlayback.frames_length p)%nat ->
  FlatPlayback.isActive p = true ->
  let p' := Nat.iter k FlatPlayback.animate p in
  FlatPlayback.frames_length p' = FlatPlayback.frames_length p
  /\ FlatPlayback.isActive p' = true
  /\ FlatPlayback.currentFrameIndex p'
     = ((FlatPlayback.currentFrameIndex p + k) mod FlatPlayback.frames_length p)%nat
  /\ FlatPlayback.shown p'
     = FlatPlayback.shown p
       ++ ((fun j => ((FlatPlayback.currentFrameIndex p + j)
                        mod FlatPlayback.frames_length p)%nat) <$> List.seq 0 k).
Proof.
  intros Hlen Hcur Hact. cbv zeta. induction k as [|k (Hl & Ha & Hc & Hs)].
  - cbn. rewrite Nat.add_0_r, Nat.mod_small, app_nil_r by done. done.
  - rewrite Nat.iter_succ. set (q := Nat.iter k FlatPlayback.animate p) in *.
    unfold FlatPlayback.animate. rewrite Ha. cbn -[List.seq Nat.modulo].
    rewrite Hl, Hc, Hs. repeat split.
    + rewrite Nat.Div0.add_mod_idemp_l. f_equal. lia.
    + rewrite seq_S, fmap_app, app_assoc. done.
Qed.

End FlatPlaybackFacts.

(** Playback of the second reader.  While the component is active, the
    [k]-th call of [animate] shows the frame [k] places after the first one,
    counted around the frames: every frame is shown in turn and the index
    stays within the frames. *)
Theorem flat_playback_cycles_through_the_frames (k : nat) (p : FlatPlayback.player) :
  (0 < FlatPlayback.frames_length p)%nat ->
  (FlatPlayback.currentFrameIndex p < FlatPlayback.frames_length p)%nat ->
  FlatPlayback.isActive p = true ->
  FlatPlayback.shown (Nat.iter k FlatPlayback.animate p)
  = FlatPlayback.shown p
    ++ ((fun j => ((FlatPlayback.currentFrameIndex p + j)
                     mod FlatPlayback.frames_length p)%nat) <$> List.seq 0 k)
  /\ FlatPlayback.currentFrameIndex (Nat.iter k FlatPlayback.animate p)
     = ((FlatPlayback.currentFrameIndex p + k) mod FlatPlayback.frames_length p)%nat
  /\ (FlatPlayback.currentFrameIndex (Nat.iter k FlatPlayback.animate p)
      < FlatPlayback.frames_length p)%nat.
Proof.
  intros Hlen Hcur Hact.
  destruct (flat_animate_iter k p Hlen Hcur Hact) as (Hl & Ha & Hc & Hs).
  split; [done|]. split; [done|]. rewrite Hc. apply Nat.mod_upper_bound. lia.
Qed.

Lemma flat_playback_cycles_through_the_frames_witness :
  let p := {| FlatPlayback.frames_length := 3; FlatPlayback.currentFrameIndex := 0;
              FlatPlayback.isActive := true; FlatPlayback.shown := [] |} in
  FlatPlayback.shown (Nat.iter 5 FlatPlayback.animate p) = [0; 1; 2; 0; 1]%nat
  /\ FlatPlayback.currentFrameIndex (Nat.iter 5 FlatPlayback.animate p) = 2%nat
  /\ (FlatPlayback.currentFrameIndex (Nat.iter 5 FlatPlayback.animate p) < 3)%nat.
Proof.
  intros p.
  apply (flat_playback_cycles_through_the_frames 5 p); cbn; (lia || reflexivity).
Defined.
